(** * Label Mail Merge: the label composition and layout engine

    A shallow embedding of the CSV parser and template substitution
    (csv-parser.ts), the inline-style segmenter (markdown.ts) and the wrap
    and pagination code of the PDF generator (pdf-generator.ts), followed by
    the properties of the engine, proved over the embedding or refuted on a
    concrete input.

    Modelling choices:
    - a JavaScript string is a [string]; one [ascii] stands for one UTF-16
      code unit in the range 0..255;
    - a row object is the finite map of its own properties, and a property
      read that misses falls back to [Object.prototype];
    - counts and indices are [nat]; measured text widths are [Z]; the page
      geometry is kept abstract over its number type;
    - loops are recursive functions over what remains to be scanned, with
      the loop's locals as arguments. *)

From Stdlib Require Import ZArith Lia Bool Ascii String DecimalString DecimalNat.
From stdpp Require Import base option list gmap strings.

Local Open Scope nat_scope.

#[global] Arguments Ascii.eqb : simpl never.
#[global] Arguments String.eqb : simpl never.

(** ** Characters and JavaScript string primitives *)

Module JS.

Definition TAB : ascii := "009"%char.
Definition LF : ascii := "010"%char.
Definition CR : ascii := "013"%char.
Definition DQUOTE : ascii := "034"%char.
Definition COMMA : ascii := ","%char.
Definition STAR : ascii := "*"%char.
Definition UNDERSCORE : ascii := "_"%char.
Definition TILDE : ascii := "~"%char.
Definition BACKSLASH : ascii := "\"%char.
Definition LT : ascii := "<"%char.
Definition GT : ascii := ">"%char.

(** A one-character string, as produced by [s[i]] or [s.charAt(i)]. *)
Definition chr (c : ascii) : string := String c "".

(** [WhiteSpace] and [LineTerminator] code units below 256: the characters
    matched by [\s] and removed by [trim()]. *)
Definition isWhiteSpace (c : ascii) : bool :=
  match nat_of_ascii c with
  | 9 | 10 | 11 | 12 | 13 | 32 | 160 => true
  | _ => false
  end.

Fixpoint trimStart (s : string) : string :=
  match s with
  | "" => ""
  | String c s' => if isWhiteSpace c then trimStart s' else s
  end.

Fixpoint trimEnd (s : string) : string :=
  match s with
  | "" => ""
  | String c s' =>
      match trimEnd s' with
      | "" => if isWhiteSpace c then "" else chr c
      | r => String c r
      end
  end.

Definition trim (s : string) : string := trimEnd (trimStart s).

Definition isEmpty (s : string) : bool :=
  match s with "" => true | _ => false end.

Definition isUpperAZ (c : ascii) : bool :=
  let n := nat_of_ascii c in (65 <=? n) && (n <=? 90).
Definition isLowerAZ (c : ascii) : bool :=
  let n := nat_of_ascii c in (97 <=? n) && (n <=? 122).
Definition isDigit (c : ascii) : bool :=
  let n := nat_of_ascii c in (48 <=? n) && (n <=? 57).

(** [toLowerCase] on one code unit below 256: A-Z and the Latin-1
    capitals (0xC0-0xDE, without the multiplication sign 0xD7). *)
Definition lowerChar (c : ascii) : ascii :=
  let n := nat_of_ascii c in
  if isUpperAZ c then ascii_of_nat (n + 32)
  else if (192 <=? n) && (n <=? 222) && negb (n =? 215)
       then ascii_of_nat (n + 32)
       else c.

(** [toUpperCase] is only ever applied to characters that survived the
    [a-zA-Z0-9] filter of [normalizeHeader]; there it is the ASCII map. *)
Definition upperChar (c : ascii) : ascii :=
  if isLowerAZ c then ascii_of_nat (nat_of_ascii c - 32) else c.

Fixpoint mapChars (f : ascii -> ascii) (s : string) : string :=
  match s with
  | "" => ""
  | String c s' => String (f c) (mapChars f s')
  end.

Definition toLowerCase : string -> string := mapChars lowerChar.
Definition toUpperCase : string -> string := mapChars upperChar.

Fixpoint filterChars (p : ascii -> bool) (s : string) : string :=
  match s with
  | "" => ""
  | String c s' => if p c then String c (filterChars p s') else filterChars p s'
  end.

(** [(s.match(/c/g) ?? []).length] *)
Fixpoint countChar (c : ascii) (s : string) : nat :=
  match s with
  | "" => 0
  | String d s' => (if Ascii.eqb d c then 1 else 0) + countChar c s'
  end.

(** Decimal rendering of a number inside a template literal. *)
Definition numberToString (n : nat) : string :=
  NilEmpty.string_of_uint (Nat.to_uint n).

(** [words.join('')] *)
Definition join (l : list string) : string :=
  foldr String.append "" l.

(** Prepend a character to the first element of a non-empty split. *)
Definition consFirst (c : ascii) (l : list string) : list string :=
  match l with
  | w :: ws => String c w :: ws
  | [] => [chr c]
  end.

(** [text.split(/\r?\n/)]: a line ends at LF or at CR LF; a CR that is not
    followed by LF is an ordinary character.  The result is never empty. *)
Fixpoint splitLines (s : string) : list string :=
  match s with
  | "" => [""]
  | String c s' =>
      if Ascii.eqb c LF then "" :: splitLines s'
      else
        match s' with
        | String c2 s'' =>
            if Ascii.eqb c CR && Ascii.eqb c2 LF then "" :: splitLines s''
            else consFirst c (splitLines s')
        | "" => consFirst c (splitLines s')
        end
  end.

(** [text.split('\n')] *)
Fixpoint splitOnLF (s : string) : list string :=
  match s with
  | "" => [""]
  | String c s' =>
      if Ascii.eqb c LF then "" :: splitOnLF s'
      else consFirst c (splitOnLF s')
  end.

End JS.

(** ** csv-parser.ts *)

Module Csv.
Import JS.

(** Common column headers for address data (lowercase for matching). *)
Definition KNOWN_HEADERS : list string :=
  [ "name"; "first name"; "firstname"; "first_name"; "fname";
    "last name"; "lastname"; "last_name"; "lname"; "surname";
    "full name"; "fullname"; "full_name";
    "address"; "address1"; "address 1"; "address_1"; "street";
    "street address"; "street_address";
    "address2"; "address 2"; "address_2"; "apt"; "apartment"; "suite"; "unit";
    "city"; "town";
    "state"; "province"; "region";
    "zip"; "zipcode"; "zip code"; "zip_code"; "postal"; "postal code";
    "postal_code"; "postcode";
    "country"; "nation";
    "email"; "e-mail"; "email address"; "email_address";
    "phone"; "telephone"; "phone number"; "phone_number"; "tel";
    "company"; "organization"; "org"; "business";
    "title"; "prefix"; "suffix"; "salutation";
    "department"; "dept" ].

(** [ParsedData]; a row object ([Record<string, string>], created as [{}])
    is modelled by the finite map of its own properties. *)
Record ParsedData := mkParsedData {
  headers : list string;
  rows : list (gmap string string);
  hasHeaders : bool
}.

(** [detectDelimiter]: the counts are taken on element 0 of the split of the
    raw text. *)
Definition detectDelimiter (text : string) : string :=
  let firstLine := default "" (head (splitLines text)) in
  let tabCount := countChar TAB firstLine in
  let commaCount := countChar COMMA firstLine in
  if commaCount <? tabCount then chr TAB else chr COMMA.

(** The loop of [parseLine], over the characters that remain, with the
    locals [current], [inQuotes] and [fields]. *)
Fixpoint parseLineFrom (delimiter : string) (line : string)
    (current : string) (inQuotes : bool) (fields : list string) : list string :=
  match line with
  | "" => fields ++ [trim current]
  | String char rest =>
      if inQuotes then
        if Ascii.eqb char DQUOTE then
          match rest with
          | String nextChar rest' =>
              if Ascii.eqb nextChar DQUOTE
              then parseLineFrom delimiter rest' (current +:+ chr DQUOTE) true fields
              else parseLineFrom delimiter rest current false fields
          | "" => parseLineFrom delimiter rest current false fields
          end
        else parseLineFrom delimiter rest (current +:+ chr char) true fields
      else
        if Ascii.eqb char DQUOTE then
          parseLineFrom delimiter rest current true fields
        else if String.eqb (chr char) delimiter then
          parseLineFrom delimiter rest "" false (fields ++ [trim current])
        else parseLineFrom delimiter rest (current +:+ chr char) false fields
  end.

Definition parseLine (line : string) (delimiter : string) : list string :=
  parseLineFrom delimiter line "" false [].

Definition isKnownHeader (field : string) : bool :=
  existsb (String.eqb field) KNOWN_HEADERS.

Definition detectHeaders (firstRow : list string) : bool :=
  let normalizedRow := map (fun field => trim (toLowerCase field)) firstRow in
  let matchCount := length (filter (fun f => isKnownHeader f = true) normalizedRow) in
  (2 <=? matchCount)
  || ((0 <? matchCount) && (length normalizedRow <=? 2 * matchCount)).

Definition generateColumnHeaders (count : nat) : list string :=
  map (fun i => "Column" +:+ numberToString (i + 1)) (seq 0 count).

(** Character class [a-zA-Z0-9\s_-]. *)
Definition isHeaderChar (c : ascii) : bool :=
  isLowerAZ c || isUpperAZ c || isDigit c || isWhiteSpace c
  || Ascii.eqb c UNDERSCORE || Ascii.eqb c "-"%char.

(** Character class [\s_-]. *)
Definition isWordSep (c : ascii) : bool :=
  isWhiteSpace c || Ascii.eqb c UNDERSCORE || Ascii.eqb c "-"%char.

(** [cleaned.split(/[\s_-]+/)]; [inSep] holds while a run of separators is
    being skipped.  A leading or trailing run yields an empty word. *)
Fixpoint splitWordsFrom (inSep : bool) (s : string) : list string :=
  match s with
  | "" => [""]
  | String c s' =>
      if isWordSep c then
        if inSep then splitWordsFrom true s' else "" :: splitWordsFrom true s'
      else consFirst c (splitWordsFrom false s')
  end.

Definition splitWords (s : string) : list string := splitWordsFrom false s.

Definition capitalize (word : string) : string :=
  match word with
  | "" => ""
  | String c w => String (upperChar c) (toLowerCase w)
  end.

Definition normalizeHeader (header : string) : string :=
  let cleaned := trim (filterChars isHeaderChar header) in
  let words := splitWords cleaned in
  join (map capitalize words).

(** The [headers.map] with the [headerCounts] map threaded through. *)
Fixpoint uniqueHeadersFrom (headerCounts : gmap string nat) (hs : list string)
    : list string :=
  match hs with
  | [] => []
  | header :: hs' =>
      let count := default 0 (headerCounts !! header) in
      let headerCounts' := <[header := count + 1]> headerCounts in
      (if 0 <? count then header +:+ numberToString (count + 1) else header)
        :: uniqueHeadersFrom headerCounts' hs'
  end.

Definition uniqueHeaders (hs : list string) : list string :=
  uniqueHeadersFrom ∅ hs.

(** The inner [for j] loop: [row[headers[j]] = fields[j] ?? ''] for [j] from
    the given index on.  A later assignment to the same key overwrites. *)
Fixpoint fillRow (hs : list string) (j : nat) (fields : list string)
    (row : gmap string string) : gmap string string :=
  match hs with
  | [] => row
  | header :: hs' =>
      fillRow hs' (S j) fields (<[header := default "" (fields !! j)]> row)
  end.

Definition buildRow (hs : list string) (fields : list string) : gmap string string :=
  fillRow hs 0 fields ∅.

Definition parseCSV (text : string) : ParsedData :=
  let lines := filter (fun line => trim line ≠ "") (splitLines text) in
  match lines with
  | [] => mkParsedData [] [] false
  | line0 :: _ =>
      let delimiter := detectDelimiter text in
      let firstRow := parseLine line0 delimiter in
      let hasHeaders := detectHeaders firstRow in
      let headers := if hasHeaders then map normalizeHeader firstRow
                     else generateColumnHeaders (length firstRow) in
      let dataStartIndex := if hasHeaders then 1 else 0 in
      let headers := uniqueHeaders headers in
      let rows := map (fun line => buildRow headers (parseLine line delimiter))
                      (drop dataStartIndex lines) in
      mkParsedData headers rows hasHeaders
  end.

(** [Object.prototype]: a row is created as [{}], so a property read
    [data[key]] that finds no own property continues along the prototype
    chain.  The entry is the string conversion of the inherited value, which
    is what [String.prototype.replace] does with the callback's result.  The
    text of a built-in function is engine-defined; the V8 rendering is used. *)
Definition nativeFunction (name : string) : string :=
  "function " +:+ name +:+ "() { [native code] }".

Definition objectPrototype (key : string) : option string :=
  if String.eqb key "constructor" then Some (nativeFunction "Object")
  else if String.eqb key "__proto__" then Some "[object Object]"
  else if existsb (String.eqb key)
            [ "__defineGetter__"; "__defineSetter__"; "hasOwnProperty";
              "__lookupGetter__"; "__lookupSetter__"; "isPrototypeOf";
              "propertyIsEnumerable"; "toString"; "valueOf"; "toLocaleString" ]
       then Some (nativeFunction key)
       else None.

(** [data[key]], string-converted; [None] stands for [undefined]. *)
Definition getProperty (data : gmap string string) (key : string) : option string :=
  match data !! key with
  | Some v => Some v
  | None => objectPrototype key
  end.

(** The longest prefix without [>] (the greedy [[^>]+]) and what follows. *)
Fixpoint spanKey (s : string) : string * string :=
  match s with
  | "" => ("", "")
  | String c s' =>
      if Ascii.eqb c GT then ("", s)
      else let '(k, r) := spanKey s' in (String c k, r)
  end.

(** One attempt of [/<<([^>]+)>>/] at the start of [s]: the captured key and
    the text after the match.  The class excludes [>], so a shorter capture
    can never be followed by [>>]: no backtracking is needed. *)
Definition matchPlaceholder (s : string) : option (string * string) :=
  match s with
  | String c1 (String c2 s1) =>
      if Ascii.eqb c1 LT && Ascii.eqb c2 LT then
        let '(key, r) := spanKey s1 in
        if isEmpty key then None
        else
          match r with
          | String c3 (String c4 rest) =>
              if Ascii.eqb c3 GT && Ascii.eqb c4 GT then Some (key, rest) else None
          | _ => None
          end
      else None
  | _ => None
  end.

(** The callback of [applyTemplate]: [data[key.trim()] ?? match]. *)
Definition replacer (data : gmap string string) (key : string) : string :=
  default ("<<" +:+ key +:+ ">>") (getProperty data (trim key)).

(** [template.replace(/<<([^>]+)>>/g, ...)], left to right; [skip] counts the
    characters of the current match that are still to be passed over, so
    that the scan resumes right after the match and never looks at the
    replacement text. *)
Fixpoint replaceFrom (data : gmap string string) (skip : nat) (s : string) : string :=
  match s with
  | "" => ""
  | String c s' =>
      match skip with
      | S k => replaceFrom data k s'
      | 0 =>
          match matchPlaceholder s with
          | Some (key, _) =>
              replacer data key +:+ replaceFrom data (String.length key + 3) s'
          | None => String c (replaceFrom data 0 s')
          end
      end
  end.

Definition applyTemplate (template : string) (data : gmap string string) : string :=
  replaceFrom data 0 template.

Definition getPlaceholders (headers : list string) : list string :=
  map (fun h => "<<" +:+ h +:+ ">>") headers.

End Csv.

(** ** markdown.ts *)

Module Markdown.
Import JS.

Record TextSegment := mkSegment {
  text : string;
  bold : bool;
  italic : bool;
  underline : bool;
  newline : bool
}.

Definition lineBreak : TextSegment := mkSegment "" false false false true.

Definition nextOf (s : string) : option ascii :=
  match s with String c _ => Some c | "" => None end.

Definition isChar (o : option ascii) (c : ascii) : bool :=
  match o with Some d => Ascii.eqb d c | None => false end.

(** [if (buffer) { segments.push({...}) }] *)
Definition flush (buffer : string) (b i u : bool) (segments : list TextSegment)
    : list TextSegment :=
  if isEmpty buffer then segments else segments ++ [mkSegment buffer b i u false].

(** The [while (i < remaining.length)] loop over [remaining.slice(i)];
    [prevChar] is [remaining[i - 1]].  A two-character marker is only
    recognised when [nextChar] exists, so the empty case of the inner match
    on [rest] is never taken. *)
Fixpoint scanLine (remaining : string) (prevChar : option ascii)
    (currentBold currentItalic currentUnderline : bool)
    (buffer : string) (segments : list TextSegment) : list TextSegment :=
  match remaining with
  | "" => flush buffer currentBold currentItalic currentUnderline segments
  | String char rest =>
      let nextChar := nextOf rest in
      if (Ascii.eqb char STAR && isChar nextChar STAR)
         || (Ascii.eqb char UNDERSCORE && isChar nextChar UNDERSCORE) then
        match rest with
        | String c2 rest' =>
            scanLine rest' (Some c2) (negb currentBold) currentItalic currentUnderline ""
              (flush buffer currentBold currentItalic currentUnderline segments)
        | "" => segments
        end
      else if ((Ascii.eqb char STAR && negb (isChar nextChar STAR))
               || (Ascii.eqb char UNDERSCORE && negb (isChar nextChar UNDERSCORE)))
              && negb (isChar prevChar BACKSLASH) then
        scanLine rest (Some char) currentBold (negb currentItalic) currentUnderline ""
          (flush buffer currentBold currentItalic currentUnderline segments)
      else if Ascii.eqb char TILDE && isChar nextChar TILDE then
        match rest with
        | String c2 rest' =>
            scanLine rest' (Some c2) currentBold currentItalic (negb currentUnderline) ""
              (flush buffer currentBold currentItalic currentUnderline segments)
        | "" => segments
        end
      else
        scanLine rest (Some char) currentBold currentItalic currentUnderline
          (buffer +:+ chr char) segments
  end.

(** The [for (lineIndex ...)] loop: the toggles and the buffer are locals of
    the loop body, initialised anew for every line. *)
Fixpoint parseLinesFrom (lineIndex : nat) (lines : list string)
    (segments : list TextSegment) : list TextSegment :=
  match lines with
  | [] => segments
  | line :: lines' =>
      let segments := if 0 <? lineIndex then segments ++ [lineBreak] else segments in
      parseLinesFrom (S lineIndex) lines'
        (scanLine line None false false false "" segments)
  end.

Definition parseMarkdownToSegments (text : string) : list TextSegment :=
  parseLinesFrom 0 (splitOnLF text) [].

End Markdown.

(** ** markdown.ts: plain text *)

Module MarkdownText.
Import JS.

(** What [.] matches: any character but a line terminator. *)
Definition isDot (c : ascii) : bool :=
  negb (Ascii.eqb c LF) && negb (Ascii.eqb c CR).

(** The text behind [mark], if the text starts with it. *)
Fixpoint stripPrefix (mark s : string) : option string :=
  match mark with
  | "" => Some s
  | String m mark' =>
      match s with
      | String c s' => if Ascii.eqb c m then stripPrefix mark' s' else None
      | "" => None
      end
  end.

(** The rest of the lazy group [(.+?)], one character of which has been
    taken, and the closing marker: the group is extended by one character at
    a time, until the marker follows; what is returned is the rest of the
    capture and the text behind the match. *)
Fixpoint closeAfter (mark s : string) : option (string * string) :=
  match stripPrefix mark s with
  | Some rest => Some ("", rest)
  | None =>
      match s with
      | String c s' =>
          if isDot c then
            match closeAfter mark s' with
            | Some (capture, rest) => Some (String c capture, rest)
            | None => None
            end
          else None
      | "" => None
      end
  end.

(** One attempt of [/mark(.+?)mark/] at the start of [s]: the capture and
    the text behind the match. *)
Definition matchPair (mark s : string) : option (string * string) :=
  match stripPrefix mark s with
  | Some (String c s1) =>
      if isDot c then
        match closeAfter mark s1 with
        | Some (capture, rest) => Some (String c capture, rest)
        | None => None
        end
      else None
  | _ => None
  end.

(** [text.replace(/mark(.+?)mark/g, '$1')]; [skip] counts the characters of
    the current match that are still to be passed over. *)
Fixpoint replacePairFrom (mark : string) (skip : nat) (s : string) : string :=
  match s with
  | "" => ""
  | String c s' =>
      match skip with
      | S k => replacePairFrom mark k s'
      | 0 =>
          match matchPair mark s with
          | Some (capture, _) =>
              capture
              +:+ replacePairFrom mark
                    (String.length mark + String.length capture
                     + String.length mark - 1) s'
          | None => String c (replacePairFrom mark 0 s')
          end
      end
  end.

Definition replacePair (mark s : string) : string := replacePairFrom mark 0 s.

Definition markdownToPlainText (text : string) : string :=
  replacePair "~~"
    (replacePair "_" (replacePair "*" (replacePair "__" (replacePair "**" text)))).

End MarkdownText.

(** ** pdf-generator.ts *)

Module Pdf.
Import JS.
Export Markdown.

Definition getFontName (bold italic : bool) : string :=
  if bold && italic then "Helvetica-BoldOblique"
  else if bold then "Helvetica-Bold"
  else if italic then "Helvetica-Oblique"
  else "Helvetica".

(** [segment.text.split(/(\s+)/)]: words and the whitespace runs between
    them, alternating, starting and ending with a (possibly empty) word. *)
Fixpoint splitSpacesFrom (inSpace : bool) (s : string) : list string :=
  match s with
  | "" => if inSpace then [""; ""] else [""]
  | String c s' =>
      if isWhiteSpace c then
        if inSpace then consFirst c (splitSpacesFrom true s')
        else "" :: consFirst c (splitSpacesFrom true s')
      else
        if inSpace then "" :: consFirst c (splitSpacesFrom false s')
        else consFirst c (splitSpacesFrom false s')
  end.

Definition splitSpaces (s : string) : list string := splitSpacesFrom false s.

Section Wrap.

(** [doc.font(font).fontSize(fontSize); doc.widthOfString(word)]: the width
    of a text under a font, at the font size of the call. *)
Variable widthOfString : string -> string -> Z.
Variable maxWidth : Z.

Record WrapState := mkWrap {
  lines : list (list TextSegment);
  currentLine : list TextSegment;
  currentWidth : Z
}.

Definition isNil {A} (l : list A) : bool :=
  match l with [] => true | _ => false end.

(** [lines.push(currentLine); currentLine = []; currentWidth = 0] *)
Definition closeLine (st : WrapState) : WrapState :=
  mkWrap (lines st ++ [currentLine st]) [] 0.

(** The body of [for (const word of words)]. *)
Definition wordStep (segment : TextSegment) (st : WrapState) (word : string)
    : WrapState :=
  if isEmpty word then st
  else
    let wordWidth := widthOfString (getFontName (bold segment) (italic segment)) word in
    let st :=
      if (maxWidth <? currentWidth st + wordWidth)%Z && negb (isNil (currentLine st))
      then closeLine st else st in
    if isNil (currentLine st) && isEmpty (trim word) then st
    else
      mkWrap (lines st)
             (currentLine st
                ++ [mkSegment word (bold segment) (italic segment) (underline segment) false])
             (currentWidth st + wordWidth).

(** The body of [for (const segment of segments)]. *)
Definition segmentStep (st : WrapState) (segment : TextSegment) : WrapState :=
  if newline segment then
    mkWrap (if isNil (currentLine st) then lines st else lines st ++ [currentLine st])
           [] 0
  else
    fold_left (wordStep segment) (splitSpaces (text segment)) st.

Definition finish (st : WrapState) : list (list TextSegment) :=
  if isNil (currentLine st) then lines st else lines st ++ [currentLine st].

Definition splitIntoLines (segments : list TextSegment) : list (list TextSegment) :=
  finish (fold_left segmentStep segments (mkWrap [] [] 0)).

(** The line width as [renderLabelContent] sums it up. *)
Definition fragmentWidth (f : TextSegment) : Z :=
  widthOfString (getFontName (bold f) (italic f)) (text f).

Definition lineWidth (line : list TextSegment) : Z :=
  fold_left (fun w f => (w + fragmentWidth f)%Z) line 0%Z.

End Wrap.

Section Pagination.

(** The geometry of a format is only added and multiplied; the number type
    is left open. *)
Variable num : Type.
Variable add mul : num -> num -> num.
Variable ofNat : nat -> num.

(** Modelled from the spec: the [PaperFormat] type of paper-formats.ts,
    which is imported by the generator but not part of the sources read. *)
Record PaperFormat := mkPaperFormat {
  id : string;
  name : string;
  description : string;
  pageWidth : num;
  pageHeight : num;
  columns : nat;
  rows : nat;
  labelWidth : num;
  labelHeight : num;
  marginLeft : num;
  marginTop : num;
  horizontalGap : num;
  verticalGap : num
}.

(** One label as it is drawn: where, and from which record. *)
Record LabelPlacement := mkPlacement {
  pageIndex : nat;
  row : nat;
  column : nat;
  recordIndex : nat;
  x : num;
  y : num
}.

Variable format : PaperFormat.
Variable data : list (gmap string string).

Definition labelsPerPage : nat := columns format * rows format.

(** [Math.ceil(data.length / labelsPerPage)].  With [labelsPerPage = 0] the
    quotient is [NaN] for no records (the page loop runs zero times) and
    [Infinity] otherwise (the page loop never ends): [None]. *)
Definition totalPages : option nat :=
  match labelsPerPage with
  | 0 => if length data =? 0 then Some 0 else None
  | S _ => Some ((length data + labelsPerPage - 1) / labelsPerPage)
  end.

Definition boxX (col : nat) : num :=
  add (marginLeft format) (mul (ofNat col) (add (labelWidth format) (horizontalGap format))).

Definition boxY (row : nat) : num :=
  add (marginTop format) (mul (ofNat row) (add (labelHeight format) (verticalGap format))).

(** [for (let col = ...; col < format.columns; col++)], with [k] iterations
    to go; [break] once [dataIndex] is past the data. *)
Fixpoint colLoop (k : nat) (page row col : nat) : list LabelPlacement :=
  match k with
  | 0 => []
  | S k' =>
      let startIndex := page * labelsPerPage in
      let dataIndex := startIndex + row * columns format + col in
      if length data <=? dataIndex then []
      else
        match data !! dataIndex with
        | None => (* [if (!record) continue] *) colLoop k' page row (S col)
        | Some record =>
            mkPlacement page row col dataIndex (boxX col) (boxY row)
              :: colLoop k' page row (S col)
        end
  end.

Fixpoint rowLoop (k : nat) (page row : nat) : list LabelPlacement :=
  match k with
  | 0 => []
  | S k' => colLoop (columns format) page row 0 ++ rowLoop k' page (S row)
  end.

Fixpoint pageLoop (k : nat) (page : nat) : list LabelPlacement :=
  match k with
  | 0 => []
  | S k' => rowLoop (rows format) page 0 ++ pageLoop k' (S page)
  end.

(** The labels drawn by [generatePDF], in drawing order; [None] when the
    page loop does not terminate. *)
Definition generatePDF : option (list LabelPlacement) :=
  match totalPages with
  | Some n => Some (pageLoop n 0)
  | None => None
  end.

(** The placement the row-major formula assigns to position [i]. *)
Definition placementOf (i : nat) : LabelPlacement :=
  let withinPage := i mod labelsPerPage in
  let r := withinPage / columns format in
  let c := withinPage mod columns format in
  mkPlacement (i / labelsPerPage) r c i (boxX c) (boxY r).

End Pagination.

Arguments mkPaperFormat {num}.
Arguments id {num}.
Arguments name {num}.
Arguments description {num}.
Arguments pageWidth {num}.
Arguments pageHeight {num}.
Arguments columns {num}.
Arguments rows {num}.
Arguments labelWidth {num}.
Arguments labelHeight {num}.
Arguments marginLeft {num}.
Arguments marginTop {num}.
Arguments horizontalGap {num}.
Arguments verticalGap {num}.
Arguments mkPlacement {num}.
Arguments pageIndex {num}.
Arguments row {num}.
Arguments column {num}.
Arguments recordIndex {num}.
Arguments x {num}.
Arguments y {num}.
Arguments labelsPerPage {num}.
Arguments totalPages {num}.
Arguments boxX {num}.
Arguments boxY {num}.
Arguments colLoop {num}.
Arguments rowLoop {num}.
Arguments pageLoop {num}.
Arguments generatePDF {num}.
Arguments placementOf {num}.

End Pdf.

(** ** pdf-generator.ts: what is drawn *)

Module PdfDraw.
Import JS.
Export Pdf.

Section Draw.

(** The numbers of the page geometry, with the operations the drawing code
    applies to them; [half a] is [a / 2], [lineFactor] is the constant
    [1.2]. *)
Variable num : Type.
Variable add sub mul : num → num → num.
Variable half : num → num.
Variable ofNat : nat → num.
Variable ofZ : Z → num.
Variable lineFactor : num.

(** [doc.moveTo(x1, y1).lineTo(x2, y2).stroke()] *)
Record Stroke := mkStroke {
  fromX : num;
  fromY : num;
  toX : num;
  toY : num
}.

Section CutMarks.
Variable format : PaperFormat num.

Definition markLength : num := ofNat 10.
Definition markOffset : num := ofNat 2.

(** The body of the two loops of [drawCutMarks], for one intersection of
    the grid lines. *)
Definition cornerMarks (row col : nat) : list Stroke :=
  let x := boxX add mul ofNat format col in
  let y := boxY add mul ofNat format row in
  let adjustedX := if 0 <? col then sub x (half (horizontalGap format)) else x in
  let adjustedY := if 0 <? row then sub y (half (verticalGap format)) else y in
  (if (row =? 0) || (col =? 0) then
     [ mkStroke (sub (sub adjustedX markOffset) markLength) adjustedY
                (sub adjustedX markOffset) adjustedY;
       mkStroke adjustedX (sub (sub adjustedY markOffset) markLength)
                adjustedX (sub adjustedY markOffset) ]
   else [])
  ++ (if col =? columns format then
        [ mkStroke (add adjustedX markOffset) adjustedY
                   (add (add adjustedX markOffset) markLength) adjustedY;
          mkStroke adjustedX (sub (sub adjustedY markOffset) markLength)
                   adjustedX (sub adjustedY markOffset) ]
      else [])
  ++ (if row =? rows format then
        [ mkStroke (sub (sub adjustedX markOffset) markLength) adjustedY
                   (sub adjustedX markOffset) adjustedY;
          mkStroke adjustedX (add adjustedY markOffset)
                   adjustedX (add (add adjustedY markOffset) markLength) ]
      else [])
  ++ (if (col =? columns format) && (row =? rows format) then
        [ mkStroke (add adjustedX markOffset) adjustedY
                   (add (add adjustedX markOffset) markLength) adjustedY;
          mkStroke adjustedX (add adjustedY markOffset)
                   adjustedX (add (add adjustedY markOffset) markLength) ]
      else []).

(** [for (row = 0; row <= format.rows; row++) for (col = 0; col <=
    format.columns; col++)] *)
Definition drawCutMarks : list Stroke :=
  flat_map (λ row, flat_map (λ col, cornerMarks row col)
                     (seq 0 (S (columns format))))
           (seq 0 (S (rows format))).

End CutMarks.

Section Render.

Variable widthOfString : string → string → Z.

Inductive TextAlign := AlignLeft | AlignCenter | AlignRight.
Inductive VerticalAlign := AlignTop | AlignMiddle | AlignBottom.

(** What [renderLabelContent] asks of the document: a text under the font
    set before it, or a line. *)
Inductive DrawOp :=
  | DrawText (t font : string) (atX atY : num)
  | DrawLine (stroke : Stroke).

(** The second [for (const segment of line)] loop. *)
Fixpoint drawSegments (line : list TextSegment) (fontSize currentX currentY : num)
    : list DrawOp :=
  match line with
  | [] => []
  | segment :: line' =>
      let font := getFontName (bold segment) (italic segment) in
      let textWidth := ofZ (widthOfString font (text segment)) in
      (if underline segment then
         [ DrawText (text segment) font currentX currentY;
           DrawLine (mkStroke currentX (add currentY fontSize)
                              (add currentX textWidth) (add currentY fontSize)) ]
       else [ DrawText (text segment) font currentX currentY ])
      ++ drawSegments line' fontSize (add currentX textWidth) currentY
  end.

(** [lineWidth], summed up from 0 over the fragments of the line. *)
Definition measuredLineWidth (line : list TextSegment) : num :=
  fold_left (λ lineWidth segment,
               add lineWidth
                 (ofZ (widthOfString (getFontName (bold segment) (italic segment))
                         (text segment))))
            line (ofZ 0).

Definition lineStartX (textAlign : TextAlign) (x : num) (width : Z)
    (lineWidth : num) : num :=
  match textAlign with
  | AlignCenter => add x (half (sub (ofZ width) lineWidth))
  | AlignRight => sub (add x (ofZ width)) lineWidth
  | AlignLeft => x
  end.

(** The [for (const line of lines)] loop. *)
Fixpoint drawLines (lines : list (list TextSegment)) (x : num) (width : Z)
    (fontSize lineHeight : num) (textAlign : TextAlign) (currentY : num)
    : list DrawOp :=
  match lines with
  | [] => []
  | line :: lines' =>
      let currentX := lineStartX textAlign x width (measuredLineWidth line) in
      drawSegments line fontSize currentX currentY
      ++ drawLines lines' x width fontSize lineHeight textAlign
           (add currentY lineHeight)
  end.

Definition startYOf (verticalAlign : VerticalAlign) (y height totalHeight : num)
    : num :=
  match verticalAlign with
  | AlignMiddle => add y (half (sub height totalHeight))
  | AlignBottom => sub (add y height) totalHeight
  | AlignTop => y
  end.

(** [renderLabelContent]; the width of the box is the bound of the wrap and
    a term of the alignment. *)
Definition renderLabelContent (content : string) (x y : num) (width : Z)
    (height fontSize : num) (textAlign : TextAlign)
    (verticalAlign : VerticalAlign) : list DrawOp :=
  let segments := parseMarkdownToSegments content in
  let lineHeight := mul fontSize lineFactor in
  let lines := splitIntoLines widthOfString width segments in
  let totalHeight := mul (ofNat (length lines)) lineHeight in
  let startY := startYOf verticalAlign y height totalHeight in
  drawLines lines x width fontSize lineHeight textAlign startY.

End Render.

End Draw.

Arguments mkStroke {num}.
Arguments fromX {num}.
Arguments fromY {num}.
Arguments toX {num}.
Arguments toY {num}.
Arguments cornerMarks {num}.
Arguments drawCutMarks {num}.
Arguments DrawText {num}.
Arguments DrawLine {num}.
Arguments drawSegments {num}.
Arguments drawLines {num}.
Arguments renderLabelContent {num}.

End PdfDraw.

(** ** Example inputs and the predicates the properties are stated with *)

Module Spec.
Import JS Csv Markdown.

Definition lf : string := chr LF.

(** The first line that is non-empty after trimming. *)
Definition firstNonEmptyLine (text : string) : string :=
  default "" (head (filter (λ line, trim line ≠ "") (splitLines text))).

(** The delimiter named by the tab and comma counts of a line. *)
Definition delimiterByCounts (line : string) : string :=
  if countChar COMMA line <? countChar TAB line then chr TAB else chr COMMA.

(** A field value written as a quoted string: every quote doubled, the whole
    enclosed in quotes. *)
Fixpoint escapeQuotes (s : string) : string :=
  match s with
  | "" => ""
  | String c s' =>
      if Ascii.eqb c DQUOTE then String DQUOTE (String DQUOTE (escapeQuotes s'))
      else String c (escapeQuotes s')
  end.

Definition quoted (body : string) : string :=
  String DQUOTE (escapeQuotes body +:+ chr DQUOTE).

(** A header row with a repeated name next to the name its repeat is
    renamed to, and one data row. *)
Definition repeatedHeaderInput : string :=
  "City,City,City2" +:+ lf +:+ "a,b,c".

(** A header row and one record. *)
Definition addressInput : string := "Name,City" +:+ lf +:+ "Ann,Oslo".

(** A template without any match of the placeholder pattern. *)
Fixpoint noPlaceholder (s : string) : Prop :=
  match s with
  | "" => True
  | String _ s' => matchPlaceholder s = None ∧ noPlaceholder s'
  end.

(** Text without style markers. *)
Definition isMarker (c : ascii) : bool :=
  Ascii.eqb c STAR || Ascii.eqb c UNDERSCORE || Ascii.eqb c TILDE.

Fixpoint plainText (s : string) : bool :=
  match s with
  | "" => true
  | String c s' => negb (isMarker c) && plainText s'
  end.

(** One line segmented from the state every line starts in. *)
Definition scanFresh (line : string) : list TextSegment :=
  scanLine line None false false false "" [].

(** An opening bold marker that is never closed, and a second line. *)
Definition unterminatedBoldInput : string := "**a" +:+ lf +:+ "b".

(** The output has a run, not a line break, in which the escaped marker
    stands as written: the text of the run is the end of what precedes the
    backslash, the backslash, the marker, and the start of what follows. *)
Definition emitsEscaped (pre post : string) (m : ascii)
    (segments : list TextSegment) : Prop :=
  ∃ before after s1 s2 p q b i u,
    segments
    = before ++ mkSegment (s1 +:+ String BACKSLASH (String m s2)) b i u false
               :: after
    ∧ pre = p +:+ s1 ∧ post = s2 +:+ q.

(** A width measurement for examples: every character is 6 units wide in
    every font. *)
Definition fixedPitch (font t : string) : Z := (6 * Z.of_nat (String.length t))%Z.

(** A line fits, or it is one fragment that is wider than the box by
    itself; and it does not begin with whitespace. *)
Definition fitsOrAlone (widthOfString : string → string → Z) (maxWidth : Z)
    (line : list TextSegment) : Prop :=
  (Pdf.lineWidth widthOfString line ≤ maxWidth)%Z
  ∨ ∃ f, line = [f] ∧ (maxWidth < Pdf.fragmentWidth widthOfString f)%Z.

Definition startsWithWord (line : list TextSegment) : Prop :=
  ∀ f, head line = Some f → trim (text f) ≠ "".

Definition lineOk (widthOfString : string → string → Z) (maxWidth : Z)
    (line : list TextSegment) : Prop :=
  line ≠ [] ∧ fitsOrAlone widthOfString maxWidth line ∧ startsWithWord line.

(** The state of the wrap loop is sound: closed lines are fine, and so is
    the current line, whose width is the one kept in [currentWidth]. *)
Definition wrapInv (widthOfString : string → string → Z) (maxWidth : Z)
    (st : Pdf.WrapState) : Prop :=
  Forall (lineOk widthOfString maxWidth) (Pdf.lines st)
  ∧ Pdf.currentWidth st = Pdf.lineWidth widthOfString (Pdf.currentLine st)
  ∧ (Pdf.currentLine st = [] ∨ lineOk widthOfString maxWidth (Pdf.currentLine st)).

(** The statement that every line-break run closes a line, whatever the
    current line holds. *)
Definition breakAlwaysClosesLine (widthOfString : string → string → Z)
    (maxWidth : Z) : Prop :=
  ∀ st seg, newline seg = true →
    Pdf.lines (Pdf.segmentStep widthOfString maxWidth st seg)
    = Pdf.lines st ++ [Pdf.currentLine st].

Definition word (t : string) : TextSegment := mkSegment t false false false false.

(** Three line breaks in a row between two words. *)
Definition threeBreaksInput : list TextSegment :=
  [word "a"; lineBreak; lineBreak; lineBreak; word "b"].

(** A 2 x 3 format, in points, and seven (empty) records. *)
Definition sixUpFormat : Pdf.PaperFormat Z :=
  Pdf.mkPaperFormat "2x3" "Six up" "2 columns, 3 rows" 612%Z 792%Z 2 3
    100%Z 50%Z 10%Z 20%Z 5%Z 6%Z.

Definition sevenRecords : list (gmap string string) := replicate 7 ∅.

(** A blank first line before tab-separated data. *)
Definition blankFirstLineInput : string :=
  lf +:+ "a" +:+ chr TAB +:+ "b" +:+ chr TAB +:+ "c".

End Spec.

(** ** Further predicates and encoders used by the properties *)

Module Aux.
Import JS Csv Markdown.

(** Every character of the string passes the test. *)
Fixpoint forallChars (p : ascii → bool) (s : string) : bool :=
  match s with
  | "" => true
  | String c s' => p c && forallChars p s'
  end.

(** Letters and digits: [a-zA-Z0-9]. *)
Definition isAlnum (c : ascii) : bool := isLowerAZ c || isUpperAZ c || isDigit c.

(** [fields.join(c)] *)
Fixpoint joinWith (c : ascii) (fields : list string) : string :=
  match fields with
  | [] => ""
  | [f] => f
  | f :: fs => f +:+ String c (joinWith c fs)
  end.

(** The lines [parseCSV] keeps. *)
Definition nonBlankLines (text : string) : list string :=
  filter (λ line, trim line ≠ "") (splitLines text).

(** How many fields of a row are known header names, once lower-cased and
    trimmed. *)
Definition knownCount (row : list string) : nat :=
  length (filter (λ f, isKnownHeader f = true)
            (map (λ field, trim (toLowerCase field)) row)).

(** Text that the segmenter copies: no style marker, no backslash, no line
    feed. *)
Definition isLiteral (c : ascii) : bool :=
  negb (Ascii.eqb c STAR) && negb (Ascii.eqb c UNDERSCORE)
  && negb (Ascii.eqb c TILDE) && negb (Ascii.eqb c BACKSLASH)
  && negb (Ascii.eqb c LF).

Definition literalText (s : string) : bool := forallChars isLiteral s.

(** A text between an opening and a closing marker. *)
Definition wrapIn (mark s : string) : string := mark +:+ s +:+ mark.

(** A run as the segmenter may emit it: the line-break run, or a run with
    some text that holds no line feed. *)
Definition properRun (run : TextSegment) : Prop :=
  run = lineBreak
  ∨ (newline run = false ∧ text run ≠ "" ∧ countChar LF (text run) = 0).

(** The tokens of a run, empty ones included, each as the fragment the wrap
    makes of it; and the tokens of all runs that are no line breaks. *)
Definition tokensOf (segment : TextSegment) : list TextSegment :=
  map (λ w, mkSegment w (bold segment) (italic segment) (underline segment) false)
      (Pdf.splitSpaces (text segment)).

Definition allTokens (segments : list TextSegment) : list TextSegment :=
  flat_map (λ segment, if newline segment then [] else tokensOf segment) segments.

(** A fragment that shows: its text is not whitespace only. *)
Definition visible (f : TextSegment) : Prop := trim (text f) ≠ "".

(** Everything the wrap has kept so far, in order. *)
Definition keptFragments (st : Pdf.WrapState) : list TextSegment :=
  concat (Pdf.lines st) ++ Pdf.currentLine st.

(** What is drawn for one fragment put at a position: its text under the
    font of its style and, if it is underlined, a line of its width one font
    size below. *)
Definition fragmentOps {num : Type} (add : num → num → num) (ofZ : Z → num)
    (widthOfString : string → string → Z) (fontSize : num)
    (placed : TextSegment * (num * num)) : list (PdfDraw.DrawOp num) :=
  let '(f, (px, py)) := placed in
  let font := Pdf.getFontName (bold f) (italic f) in
  PdfDraw.DrawText (text f) font px py
  :: (if underline f then
        [ PdfDraw.DrawLine
            (PdfDraw.mkStroke px (add py fontSize)
               (add px (ofZ (widthOfString font (text f)))) (add py fontSize)) ]
      else []).

(** A character of prose: no style marker and no line terminator. *)
Definition isProse (c : ascii) : bool :=
  negb (Spec.isMarker c) && MarkdownText.isDot c.

Definition proseText (s : string) : bool := forallChars isProse s.

(** The five markers [markdownToPlainText] removes, in its order. *)
Definition styleMarks : list string :=
  [ String STAR (chr STAR); String UNDERSCORE (chr UNDERSCORE);
    chr STAR; chr UNDERSCORE; String TILDE (chr TILDE) ].

(** Neither empty nor white at its start. *)
Definition startsClean (s : string) : Prop :=
  match s with "" => True | String c _ => isWhiteSpace c = false end.

End Aux.

(** * Properties *)

(** ** Strings *)

Module StringProps.
Import JS.

Lemma sapp_cons (c : ascii) (s r : string) :
  String c s +:+ r = String c (s +:+ r).
Proof. done. Qed.

Lemma sapp_nil_r (s : string) : s +:+ "" = s.
Proof. induction s as [|c s IH]; [done|]. by rewrite sapp_cons, IH. Qed.

Lemma sapp_assoc (s r t : string) : (s +:+ r) +:+ t = s +:+ (r +:+ t).
Proof. induction s as [|c s IH]; [done|]. by rewrite !sapp_cons, IH. Qed.

Lemma slength_app (s r : string) :
  String.length (s +:+ r) = String.length s + String.length r.
Proof. induction s as [|c s IH]; [done|]. rewrite sapp_cons. simpl. by rewrite IH. Qed.

Lemma string_ind2 (P : string → Prop) :
  P "" → (∀ c, P (String c "")) →
  (∀ c1 c2 s, P s → P (String c2 s) → P (String c1 (String c2 s))) →
  ∀ s, P s.
Proof.
  intros H0 H1 H2 s.
  assert (P s ∧ ∀ c, P (String c s)) as [H _]; [|done].
  induction s as [|c s [IH1 IH2]]; [by split|].
  split; [apply IH2|]. intros c1. by apply H2.
Qed.

Lemma head_consFirst (c : ascii) (l : list string) :
  default "" (head (consFirst c l)) = String c (default "" (head l)).
Proof. by destruct l. Qed.

End StringProps.

(** ** The dataset returned by [parseCSV] *)

Module CsvProps.
Import JS Csv StringProps.

Lemma fillRow_keeps (hs : list string) (j : nat) (fields : list string)
    (row : gmap string string) (h : string) :
  is_Some (row !! h) → is_Some (fillRow hs j fields row !! h).
Proof.
  revert j row. induction hs as [|a hs IH]; intros j row Hrow; simpl; [done|].
  apply IH. rewrite lookup_insert_is_Some.
  destruct (decide (a = h)); [by left | by right].
Qed.

(** Every header is a key of the row built for it. *)
Lemma fillRow_covers (hs : list string) (j : nat) (fields : list string)
    (row : gmap string string) (h : string) :
  h ∈ hs → is_Some (fillRow hs j fields row !! h).
Proof.
  revert j row. induction hs as [|a hs IH]; intros j row Hin; simpl.
  - by apply elem_of_nil in Hin.
  - apply elem_of_cons in Hin as [->|Hin]; [|by apply IH].
    apply fillRow_keeps. rewrite lookup_insert_eq. by eexists.
Qed.

Lemma fillRow_other (hs : list string) (j : nat) (fields : list string)
    (row : gmap string string) (h : string) :
  h ∉ hs → fillRow hs j fields row !! h = row !! h.
Proof.
  revert j row. induction hs as [|a hs IH]; intros j row Hnin; simpl; [done|].
  apply not_elem_of_cons in Hnin as [Hne Hnin].
  rewrite IH by done. by rewrite lookup_insert_ne.
Qed.

Lemma fillRow_size (hs : list string) (j : nat) (fields : list string)
    (row : gmap string string) :
  NoDup hs → (∀ h, h ∈ hs → row !! h = None) →
  size (fillRow hs j fields row) = size row + length hs.
Proof.
  revert j row. induction hs as [|a hs IH]; intros j row Hnd Hfresh; simpl.
  - lia.
  - apply NoDup_cons in Hnd as [Ha Hnd].
    rewrite IH; [|done|].
    + rewrite map_size_insert_None; [lia|]. apply Hfresh. by left.
    + intros h Hh. rewrite lookup_insert_ne.
      * apply Hfresh. by right.
      * intros ->. done.
Qed.

Lemma fillRow_lookup (hs : list string) (j : nat) (fields : list string)
    (row : gmap string string) (i : nat) (h : string) :
  NoDup hs → hs !! i = Some h →
  fillRow hs j fields row !! h = Some (default "" (fields !! (j + i))).
Proof.
  revert j row i. induction hs as [|a hs IH]; intros j row i Hnd Hi; [done|].
  apply NoDup_cons in Hnd as [Ha Hnd]. destruct i as [|i]; simpl in *.
  - injection Hi as ->. rewrite fillRow_other by done.
    rewrite lookup_insert_eq. by rewrite Nat.add_0_r.
  - rewrite (IH (S j) _ i) by done.
    by replace (S j + i) with (j + S i) by lia.
Qed.

(** With pairwise distinct headers a row is rectangular: one field per
    header, the [j]-th header bound to the [j]-th input field, or to the
    empty string when the input row is too short; surplus input fields
    are dropped. *)
Lemma buildRow_rectangular (hs fields : list string) :
  NoDup hs →
  size (buildRow hs fields) = length hs
  ∧ ∀ j h, hs !! j = Some h →
      buildRow hs fields !! h = Some (default "" (fields !! j)).
Proof.
  intros Hnd. split.
  - unfold buildRow. rewrite fillRow_size; [by rewrite map_size_empty|done|].
    intros h _. apply lookup_empty.
  - intros j h Hj. unfold buildRow.
    by rewrite (fillRow_lookup hs 0 fields ∅ j h).
Qed.

Lemma parseCSV_rows (text : string) (r : gmap string string) :
  r ∈ rows (parseCSV text) →
  ∃ fields, r = buildRow (headers (parseCSV text)) fields.
Proof.
  unfold parseCSV.
  destruct (filter _ (splitLines text)) as [|line0 ls]; simpl.
  - intros H. by apply elem_of_nil in H.
  - intros H. apply list_elem_of_fmap in H as (line & -> & _). by eexists.
Qed.

(** Every record has a value for every header. *)
Lemma parseCSV_covers (text : string) (r : gmap string string) (h : string) :
  r ∈ rows (parseCSV text) → h ∈ headers (parseCSV text) → is_Some (r !! h).
Proof.
  intros Hr Hh. apply parseCSV_rows in Hr as [fields ->].
  by apply fillRow_covers.
Qed.

Lemma parseCSV_rectangular_NoDup (text : string) (r : gmap string string) :
  NoDup (headers (parseCSV text)) → r ∈ rows (parseCSV text) →
  size r = length (headers (parseCSV text)).
Proof.
  intros Hnd Hr. apply parseCSV_rows in Hr as [fields ->].
  by apply buildRow_rectangular.
Qed.

(** The renaming of [uniqueHeaders], position by position: a header that
    did not occur before is kept, and one that occurred [k] times before is
    suffixed with [k + 1], its 1-based occurrence count. *)
Lemma uniqueHeadersFrom_lookup (counts : gmap string nat) (hs : list string)
    (i : nat) (h : string) :
  hs !! i = Some h →
  uniqueHeadersFrom counts hs !! i =
    Some (let k := default 0 (counts !! h)
                   + length (filter (λ x, x = h) (take i hs)) in
          if 0 <? k then h +:+ numberToString (k + 1) else h).
Proof.
  revert counts i. induction hs as [|a hs IH]; intros counts i Hi; [done|].
  destruct i as [|i]; simpl in *.
  - injection Hi as ->. by rewrite Nat.add_0_r.
  - rewrite (IH _ i) by done. f_equal.
    rewrite filter_cons. destruct (decide (a = h)) as [->|Hne].
    + rewrite lookup_insert_eq. simpl.
      replace (default 0 (counts !! h) + 1 + length (filter (λ x, x = h) (take i hs)))
        with (default 0 (counts !! h) + S (length (filter (λ x, x = h) (take i hs))))
        by lia.
      done.
    + by rewrite lookup_insert_ne.
Qed.

Lemma uniqueHeaders_lookup (hs : list string) (i : nat) (h : string) :
  hs !! i = Some h →
  uniqueHeaders hs !! i =
    Some (let k := length (filter (λ x, x = h) (take i hs)) in
          if 0 <? k then h +:+ numberToString (k + 1) else h).
Proof.
  intros Hi. unfold uniqueHeaders.
  rewrite (uniqueHeadersFrom_lookup ∅ hs i h Hi). by rewrite lookup_empty.
Qed.

End CsvProps.

Module CsvClaims.
Import JS Csv Markdown Spec StringProps CsvProps.

(** C2, header uniqueness: the renaming by occurrence count is meant to make
    the headers pairwise distinct, but a renamed repeat can collide with a
    header that already has that name.  On the header row [City,City,City2]
    the second [City] becomes [City2], the third header is a first occurrence
    of [City2] and stays, and the dataset ends up with two headers [City2]. *)
Theorem parseCSV_headers_collide :
  headers (parseCSV repeatedHeaderInput) = ["City"; "City2"; "City2"]
  ∧ hasHeaders (parseCSV repeatedHeaderInput) = true
  ∧ ¬ NoDup (headers (parseCSV repeatedHeaderInput)).
Proof.
  assert (headers (parseCSV repeatedHeaderInput) = ["City"; "City2"; "City2"])
    as Hh by (by vm_compute).
  split; [done|]. split; [by vm_compute|].
  rewrite Hh. intros Hnd.
  apply NoDup_cons in Hnd as [_ Hnd]. apply NoDup_cons in Hnd as [Hnin _].
  apply Hnin. by left.
Qed.

(** C1, rectangular rows: on the header row [City,City,City2] the dataset
    has three headers, but the record built for the data row [a,b,c] has only
    two fields: the value of the third column overwrites the value stored
    for the second one under the same key [City2]. *)
Theorem parseCSV_row_short_of_headers :
  length (headers (parseCSV repeatedHeaderInput)) = 3
  ∧ (λ r, (r !! "City", r !! "City2", size r))
      <$> rows (parseCSV repeatedHeaderInput)
    = [(Some "a", Some "c", 2)]
  ∧ ¬ Forall (λ r, size r = length (headers (parseCSV repeatedHeaderInput)))
        (rows (parseCSV repeatedHeaderInput)).
Proof.
  assert ((λ r, (r !! "City", r !! "City2", size r))
            <$> rows (parseCSV repeatedHeaderInput)
          = [(Some "a", Some "c", 2)]) as Hrows by (by vm_compute).
  assert (length (headers (parseCSV repeatedHeaderInput)) = 3) as Hlen
    by (by vm_compute).
  split; [done|]. split; [done|]. rewrite Hlen. intros Hall.
  destruct (rows (parseCSV repeatedHeaderInput)) as [|r rs]; [done|].
  apply Forall_cons in Hall as [Hr _].
  injection Hrows as _ _ Hsize _. lia.
Qed.

Lemma firstLine_count (c : ascii) (l rest : string) :
  Ascii.eqb c CR = false → countChar LF l = 0 →
  countChar c (default "" (head (splitLines (l +:+ String LF rest))))
  = countChar c l.
Proof.
  intros Hc. induction l as [|a l IH]; intros Hlf; [done|].
  simpl in Hlf. destruct (Ascii.eqb a LF) eqn:Ha; [done|].
  change (String a l +:+ String LF rest) with (String a (l +:+ String LF rest)).
  simpl. rewrite Ha.
  destruct (l +:+ String LF rest) as [|c2 s''] eqn:Hs.
  { by destruct l. }
  destruct (Ascii.eqb a CR && Ascii.eqb c2 LF) eqn:Hcr.
  - apply andb_true_iff in Hcr as [Hacr Hc2].
    apply Ascii.eqb_eq in Hacr as ->. apply Ascii.eqb_eq in Hc2 as ->.
    destruct l as [|b l]; simpl.
    + rewrite Ascii.eqb_sym. by rewrite Hc.
    + injection Hs as -> _. simpl in Hlf. done.
  - rewrite head_consFirst. cbn [countChar]. by rewrite IH.
Qed.

Lemma firstLine_no_LF (l : string) :
  countChar LF l = 0 → default "" (head (splitLines l)) = l.
Proof.
  induction l as [|a l IH]; intros Hlf; [done|].
  simpl in Hlf. destruct (Ascii.eqb a LF) eqn:Ha; [done|].
  simpl. rewrite Ha. destruct l as [|c2 s'']; [done|].
  destruct (Ascii.eqb a CR && Ascii.eqb c2 LF) eqn:Hcr.
  - apply andb_true_iff in Hcr as [_ Hc2]. simpl in Hlf. by rewrite Hc2 in Hlf.
  - rewrite head_consFirst. by rewrite IH.
Qed.

(** What [detectDelimiter] looks at: the tab and comma counts of the first
    line of the raw text, the text before the first line break, whether or
    not that line is blank; the delimiter so chosen is the one every data
    line is tokenised with. *)
Lemma detectDelimiter_first_raw_line (l rest text : string) :
  countChar LF l = 0 →
  detectDelimiter l = delimiterByCounts l
  ∧ detectDelimiter (l +:+ String LF rest) = delimiterByCounts l
  ∧ rows (parseCSV text)
    = map (λ line, buildRow (headers (parseCSV text))
                     (parseLine line (detectDelimiter text)))
          (drop (if hasHeaders (parseCSV text) then 1 else 0)
                (filter (λ line, trim line ≠ "") (splitLines text))).
Proof.
  intros Hlf. split; [|split].
  - unfold detectDelimiter, delimiterByCounts. by rewrite firstLine_no_LF.
  - unfold detectDelimiter, delimiterByCounts.
    by rewrite !firstLine_count.
  - unfold parseCSV.
    destruct (filter _ (splitLines text)) as [|line0 ls]; simpl.
    + done.
    + done.
Qed.

(** A first line that is a single tab makes the tab the delimiter of the
    comma-separated line that follows. *)
Lemma detectDelimiter_tab_only_first_line :
  detectDelimiter (chr TAB +:+ String LF "A,B") = chr TAB.
Proof.
  exact (proj1 (proj2 (detectDelimiter_first_raw_line (chr TAB) "A,B" "" eq_refl))).
Qed.

(** C7, delimiter detection: the delimiter is meant to come from the tab and
    comma counts of the first line that is non-empty after trimming, the
    line [parseCSV] reads as the first row; [detectDelimiter] counts on the
    first line of the raw text instead.  With a blank line before
    tab-separated data the first non-empty line holds two tabs and no comma,
    yet the comma is chosen and the line is read as one single field. *)
Theorem detectDelimiter_blank_first_line :
  delimiterByCounts (firstNonEmptyLine blankFirstLineInput) = chr TAB
  ∧ detectDelimiter blankFirstLineInput = chr COMMA
  ∧ detectDelimiter blankFirstLineInput
    ≠ delimiterByCounts (firstNonEmptyLine blankFirstLineInput)
  ∧ headers (parseCSV blankFirstLineInput) = ["Column1"].
Proof. repeat split; try by vm_compute. Qed.

(** *** Tokenising a line *)

(** From inside a quoted section: the escaped body is appended to the field
    buffer as it was written, up to the closing quote. *)
Lemma parseLineFrom_quoted (d body rest current : string) (fields : list string) :
  isChar (nextOf rest) DQUOTE = false →
  parseLineFrom d (escapeQuotes body +:+ String DQUOTE rest) current true fields
  = parseLineFrom d rest (current +:+ body) false fields.
Proof.
  intros Hrest. revert current.
  induction body as [|c body IH]; intros current.
  - rewrite sapp_nil_r. cbn [escapeQuotes].
    change ("" +:+ String DQUOTE rest) with (String DQUOTE rest).
    cbn [parseLineFrom]. rewrite Ascii.eqb_refl.
    destruct rest as [|n rest']; [done|]. simpl in Hrest. by rewrite Hrest.
  - cbn [escapeQuotes]. destruct (Ascii.eqb c DQUOTE) eqn:Hc.
    + apply Ascii.eqb_eq in Hc as ->. rewrite !sapp_cons.
      cbn [parseLineFrom]. rewrite Ascii.eqb_refl. rewrite IH.
      by rewrite sapp_assoc.
    + rewrite sapp_cons. cbn [parseLineFrom]. rewrite Hc. rewrite IH.
      by rewrite sapp_assoc.
Qed.

(** C8, as amended: inside quotes a doubled quote appends one quote and
    stays quoted, a lone quote leaves quoted mode, and any other character,
    delimiters and whitespace included, is appended unescaped; the buffer is
    trimmed when the field is closed, so a line that is one quoted string
    yields the trimmed body: whitespace and delimiters in its interior are
    kept, leading and trailing whitespace is not. *)
Theorem parseLine_quoted_field (d body rest current : string)
    (fields : list string) (c n : ascii) :
  parseLineFrom d (String DQUOTE (String DQUOTE rest)) current true fields
  = parseLineFrom d rest (current +:+ chr DQUOTE) true fields
  ∧ parseLineFrom d (chr DQUOTE) current true fields
    = parseLineFrom d "" current false fields
  ∧ (Ascii.eqb n DQUOTE = false →
     parseLineFrom d (String DQUOTE (String n rest)) current true fields
     = parseLineFrom d (String n rest) current false fields)
  ∧ (Ascii.eqb c DQUOTE = false →
     parseLineFrom d (String c rest) current true fields
     = parseLineFrom d rest (current +:+ chr c) true fields)
  ∧ parseLine (quoted body) d = [trim body].
Proof.
  split; [|split; [|split; [|split]]].
  - cbn [parseLineFrom]. by rewrite Ascii.eqb_refl.
  - unfold chr. cbn [parseLineFrom]. by rewrite Ascii.eqb_refl.
  - intros Hn. cbn [parseLineFrom]. by rewrite Ascii.eqb_refl, Hn.
  - intros Hc. cbn [parseLineFrom]. by rewrite Hc.
  - unfold parseLine, quoted. cbn [parseLineFrom]. rewrite Ascii.eqb_refl.
    replace (if String.eqb (chr DQUOTE) d then _ else _)
      with (parseLineFrom d (escapeQuotes body +:+ chr DQUOTE) "" true [])
      by (by destruct (String.eqb (chr DQUOTE) d)).
    unfold chr at 1. by rewrite parseLineFrom_quoted.
Qed.

Lemma parseLine_quoted_field_witness :
  parseLineFrom "," (String DQUOTE (String "," "x")) "a" true []
  = parseLineFrom "," (String "," "x") "a" false []
  ∧ parseLineFrom "," (String "," "x") "a" true []
    = parseLineFrom "," "x" ("a" +:+ chr ",") true []
  ∧ parseLine (quoted " a, b ") "," = ["a, b"].
Proof.
  pose proof (parseLine_quoted_field "," " a, b " "x" "a" [] "," ",")
    as (_ & _ & H3 & H4 & H5).
  split; [exact (H3 eq_refl)|]. split; [exact (H4 eq_refl)|exact H5].
Defined.

(** C8, as worded, fails: a field written as a quoted string does not keep
    its leading and trailing whitespace. *)
Lemma parseLine_quoted_whitespace_trimmed :
  parseLine (quoted " a ") "," = ["a"]
  ∧ parseLine (quoted " a ") "," ≠ [" a "].
Proof. split; [by vm_compute|]. by vm_compute. Qed.

(** *** Substituting placeholders *)

Lemma spanKey_app (s key r : string) : spanKey s = (key, r) → s = key +:+ r.
Proof.
  revert key r. induction s as [|c s IH]; intros key r H; simpl in H.
  - by injection H as <- <-.
  - destruct (Ascii.eqb c GT); [by injection H as <- <-|].
    destruct (spanKey s) as [k r'] eqn:Hs. injection H as <- <-.
    by rewrite sapp_cons, <- (IH k r').
Qed.

Lemma matchPlaceholder_shape (s key rest : string) :
  matchPlaceholder s = Some (key, rest) →
  s = "<<" +:+ key +:+ ">>" +:+ rest ∧ key ≠ "".
Proof.
  unfold matchPlaceholder. destruct s as [|c1 [|c2 s1]]; [done..|].
  destruct (Ascii.eqb c1 LT && Ascii.eqb c2 LT) eqn:H12; [|done].
  apply andb_true_iff in H12 as [->%Ascii.eqb_eq ->%Ascii.eqb_eq].
  destruct (spanKey s1) as [k r] eqn:Hs. apply spanKey_app in Hs as ->.
  destruct k as [|kc k]; [done|]. simpl.
  destruct r as [|c3 [|c4 r]]; [done..|].
  destruct (Ascii.eqb c3 GT && Ascii.eqb c4 GT) eqn:H34; [|done].
  apply andb_true_iff in H34 as [->%Ascii.eqb_eq ->%Ascii.eqb_eq].
  intros [= <- <-]. split; [|done].
  change ("<<" +:+ String kc k +:+ ">>" +:+ r)
    with (String LT (String LT (String kc k +:+ String GT (String GT r)))).
  done.
Qed.

Lemma replaceFrom_skip (data : gmap string string) (p s : string) :
  replaceFrom data (String.length p) (p +:+ s) = replaceFrom data 0 s.
Proof. induction p as [|c p IH]; [by destruct s|]. by rewrite sapp_cons. Qed.

(** Substitution is a single pass: after a match the scan resumes in the
    template right behind it; the replacement is not looked at again. *)
Lemma applyTemplate_match (data : gmap string string) (s key rest : string) :
  matchPlaceholder s = Some (key, rest) →
  applyTemplate s data = replacer data key +:+ applyTemplate rest data.
Proof.
  intros Hm. pose proof (matchPlaceholder_shape _ _ _ Hm) as [Hs _].
  unfold applyTemplate. destruct s as [|c s']; [done|].
  cbn [replaceFrom]. rewrite Hm. f_equal.
  change ("<<" +:+ key +:+ ">>" +:+ rest)
    with (String LT ("<" +:+ key +:+ ">>" +:+ rest)) in Hs.
  injection Hs as _ ->.
  rewrite <- (replaceFrom_skip data ("<" +:+ key +:+ ">>") rest).
  rewrite !sapp_assoc. f_equal.
  rewrite !slength_app. simpl. lia.
Qed.

Lemma applyTemplate_no_match (data : gmap string string) (c : ascii) (s : string) :
  matchPlaceholder (String c s) = None →
  applyTemplate (String c s) data = String c (applyTemplate s data).
Proof. intros Hm. unfold applyTemplate. cbn [replaceFrom]. by rewrite Hm. Qed.

(** A template without placeholder tokens is returned unchanged. *)
Lemma applyTemplate_no_placeholder (data : gmap string string) (s : string) :
  noPlaceholder s → applyTemplate s data = s.
Proof.
  induction s as [|c s IH]; [done|]. intros [Hm Hs].
  rewrite applyTemplate_no_match by done. by rewrite IH.
Qed.

(** A token whose identifier is neither a header of the record nor a
    property of [Object.prototype] is left as it stands; one whose
    identifier is a header is replaced by the field. *)
Lemma replacer_cases (data : gmap string string) (key v : string) :
  (data !! trim key = Some v → replacer data key = v)
  ∧ (data !! trim key = None → objectPrototype (trim key) = None →
     replacer data key = "<<" +:+ key +:+ ">>").
Proof.
  unfold replacer, getProperty. split.
  - by intros ->.
  - by intros -> ->.
Qed.

(** Whatever the record, unless it has a field of that name itself. *)
Lemma applyTemplate_constructor (data : gmap string string) :
  data !! "constructor" = None →
  applyTemplate "<<constructor>>" data = nativeFunction "Object".
Proof.
  intros Hnone. unfold applyTemplate.
  change (replaceFrom data 0 "<<constructor>>")
    with (replacer data "constructor" +:+ "").
  rewrite sapp_nil_r. unfold replacer, getProperty.
  change (trim "constructor") with "constructor". by rewrite Hnone.
Qed.

(** C6, unknown placeholders: a token whose identifier is no header is meant
    to be left verbatim ([data[key.trim()] ?? match]), but the property read
    also finds what a row object inherits from [Object.prototype].  The
    record of [Ann] has no field [constructor], and the template
    [<<constructor>>] does not come back unchanged: the token is replaced
    by the text of the inherited function. *)
Theorem applyTemplate_inherited_property :
  (λ r, (r !! "Name", r !! "constructor", applyTemplate "<<constructor>>" r))
    <$> rows (parseCSV addressInput)
  = [(Some "Ann", None, "function Object() { [native code] }")]
  ∧ (∀ r, r ∈ rows (parseCSV addressInput) →
       applyTemplate "<<constructor>>" r ≠ "<<constructor>>").
Proof.
  assert ((λ r, (r !! "Name", r !! "constructor", applyTemplate "<<constructor>>" r))
            <$> rows (parseCSV addressInput)
          = [(Some "Ann", None, "function Object() { [native code] }")]) as H
    by (by vm_compute).
  split; [done|]. intros r Hr Heq.
  apply (list_elem_of_fmap_2
           (λ r, (r !! "Name", r !! "constructor", applyTemplate "<<constructor>>" r)))
    in Hr.
  rewrite H in Hr. apply list_elem_of_singleton in Hr.
  rewrite Heq in Hr. by injection Hr.
Qed.

End CsvClaims.

(** ** The inline-style segmenter *)

Module MarkdownProps.
Import JS Markdown Spec StringProps.

Lemma flush_app (buffer : string) (b i u : bool) (segments : list TextSegment) :
  flush buffer b i u segments = segments ++ flush buffer b i u [].
Proof. unfold flush. destruct (isEmpty buffer); [by rewrite app_nil_r|done]. Qed.

Lemma flush_flush_app (x y : string) (b i u b' i' u' : bool)
    (segments : list TextSegment) :
  flush x b i u (flush y b' i' u' segments)
  = segments ++ flush x b i u (flush y b' i' u' []).
Proof.
  rewrite (flush_app x), (flush_app y), (flush_app x _ _ _ (flush y _ _ _ [])).
  by rewrite app_assoc.
Qed.

(** One turn of the loop, with at least two characters left. *)
Lemma scanLine_two (c1 c2 : ascii) (s : string) (prev : option ascii)
    (b i u : bool) (buffer : string) (segments : list TextSegment) :
  scanLine (String c1 (String c2 s)) prev b i u buffer segments
  = if (Ascii.eqb c1 STAR && Ascii.eqb c2 STAR)
       || (Ascii.eqb c1 UNDERSCORE && Ascii.eqb c2 UNDERSCORE)
    then scanLine s (Some c2) (negb b) i u "" (flush buffer b i u segments)
    else if ((Ascii.eqb c1 STAR && negb (Ascii.eqb c2 STAR))
             || (Ascii.eqb c1 UNDERSCORE && negb (Ascii.eqb c2 UNDERSCORE)))
            && negb (isChar prev BACKSLASH)
    then scanLine (String c2 s) (Some c1) b (negb i) u ""
           (flush buffer b i u segments)
    else if Ascii.eqb c1 TILDE && Ascii.eqb c2 TILDE
    then scanLine s (Some c2) b i (negb u) "" (flush buffer b i u segments)
    else scanLine (String c2 s) (Some c1) b i u (buffer +:+ chr c1) segments.
Proof. reflexivity. Qed.

(** The last turn of the loop. *)
Lemma scanLine_one (c : ascii) (prev : option ascii)
    (b i u : bool) (buffer : string) (segments : list TextSegment) :
  scanLine (String c "") prev b i u buffer segments
  = if (Ascii.eqb c STAR || Ascii.eqb c UNDERSCORE) && negb (isChar prev BACKSLASH)
    then flush "" b (negb i) u (flush buffer b i u segments)
    else flush (buffer +:+ chr c) b i u segments.
Proof.
  cbn [scanLine nextOf isChar]. rewrite !andb_false_r. cbn [orb negb].
  by rewrite !andb_true_r.
Qed.

(** The segments pushed so far are never touched again. *)
Lemma scanLine_app (remaining : string) :
  ∀ prev b i u buffer segments,
    scanLine remaining prev b i u buffer segments
    = segments ++ scanLine remaining prev b i u buffer [].
Proof.
  induction remaining as [|c|c1 c2 s IHs IHc] using string_ind2;
    intros prev b i u buffer segments.
  - apply flush_app.
  - rewrite !scanLine_one.
    destruct (_ && _); [apply flush_flush_app | apply flush_app].
  - rewrite !scanLine_two.
    repeat match goal with
           | |- context [if ?c then _ else _] => destruct c
           end;
      first [ rewrite IHs, (IHs _ _ _ _ _ (flush _ _ _ _ [])), flush_app;
              by rewrite app_assoc
            | rewrite IHc, (IHc _ _ _ _ _ (flush _ _ _ _ [])), flush_app;
              by rewrite app_assoc
            | apply IHc ].
Qed.

Lemma parseLinesFrom_S (k : nat) (lines : list string) (segments : list TextSegment) :
  parseLinesFrom (S k) lines segments
  = segments ++ flat_map (λ l, lineBreak :: scanFresh l) lines.
Proof.
  revert k segments. induction lines as [|l ls IH]; intros k segments.
  - by rewrite app_nil_r.
  - cbn [parseLinesFrom flat_map Nat.ltb Nat.leb]. rewrite IH, scanLine_app.
    rewrite <- !app_assoc. done.
Qed.

Lemma parseLines_cons (l : string) (ls : list string) :
  parseLinesFrom 0 (l :: ls) []
  = scanFresh l ++ flat_map (λ l, lineBreak :: scanFresh l) ls.
Proof. cbn [parseLinesFrom Nat.ltb Nat.leb]. by rewrite parseLinesFrom_S. Qed.

Lemma splitOnLF_cons (s : string) : ∃ l ls, splitOnLF s = l :: ls.
Proof.
  induction s as [|c s (l & ls & IH)]; [by eexists _, _|].
  cbn [splitOnLF]. destruct (Ascii.eqb c LF); [by eexists _, _|].
  rewrite IH. by eexists _, _.
Qed.

Lemma splitOnLF_app (t1 t2 : string) :
  splitOnLF (t1 +:+ String LF t2) = splitOnLF t1 ++ splitOnLF t2.
Proof.
  induction t1 as [|c t1 IH].
  - change ("" +:+ String LF t2) with (String LF t2). cbn [splitOnLF].
    by rewrite Ascii.eqb_refl.
  - rewrite sapp_cons. cbn [splitOnLF]. rewrite IH.
    destruct (Ascii.eqb c LF); [done|].
    by destruct (splitOnLF_cons t1) as (l & ls & ->).
Qed.

Lemma splitOnLF_single (s : string) : countChar LF s = 0 → splitOnLF s = [s].
Proof.
  induction s as [|c s IH]; [done|]. cbn [countChar splitOnLF].
  destruct (Ascii.eqb c LF); [done|]. intros H. by rewrite IH.
Qed.

(** Every line is segmented on its own. *)
Lemma parse_line_break (t1 t2 : string) :
  parseMarkdownToSegments (t1 +:+ String LF t2)
  = parseMarkdownToSegments t1 ++ lineBreak :: parseMarkdownToSegments t2.
Proof.
  unfold parseMarkdownToSegments. rewrite splitOnLF_app.
  destruct (splitOnLF_cons t1) as (a & la & ->).
  destruct (splitOnLF_cons t2) as (b & lb & ->).
  change ((a :: la) ++ b :: lb) with (a :: (la ++ b :: lb)).
  rewrite !parseLines_cons, flat_map_app. cbn [flat_map].
  by rewrite <- !app_assoc.
Qed.

Lemma parse_single_line (s : string) :
  countChar LF s = 0 → parseMarkdownToSegments s = scanFresh s.
Proof.
  intros H. unfold parseMarkdownToSegments. rewrite splitOnLF_single by done.
  rewrite parseLines_cons. apply app_nil_r.
Qed.

Lemma scanLine_plain (s : string) :
  ∀ prev b i u buffer segments,
    plainText s = true →
    scanLine s prev b i u buffer segments = flush (buffer +:+ s) b i u segments.
Proof.
  induction s as [|c s IH]; intros prev b i u buffer segments Hs.
  - by rewrite sapp_nil_r.
  - cbn [plainText] in Hs. apply andb_true_iff in Hs as [Hc Hs].
    unfold isMarker in Hc. apply negb_true_iff in Hc.
    apply orb_false_iff in Hc as [Hc Htilde].
    apply orb_false_iff in Hc as [Hstar Hunder].
    cbn [scanLine]. rewrite Hstar, Hunder, Htilde. cbn [andb orb].
    rewrite IH by done. by rewrite sapp_assoc.
Qed.

End MarkdownProps.

Module MarkdownClaims.
Import JS Markdown Spec StringProps MarkdownProps.

(** C5, as amended: the style toggles live for one line.  Every line of the
    text is segmented on its own, from all styles off, and the runs of the
    lines are joined by line-break runs; an opening [**] that is never closed
    makes the rest of its own line bold and nothing after the line break. *)
Theorem toggles_reset_at_line_break (t1 t2 s : string) :
  parseMarkdownToSegments (t1 +:+ String LF t2)
  = parseMarkdownToSegments t1 ++ lineBreak :: parseMarkdownToSegments t2
  ∧ (plainText s = true → countChar LF s = 0 → s ≠ "" →
     parseMarkdownToSegments ("**" +:+ s +:+ String LF t2)
     = mkSegment s true false false false
         :: lineBreak :: parseMarkdownToSegments t2).
Proof.
  split; [apply parse_line_break|]. intros Hplain Hlf Hs.
  rewrite <- sapp_assoc, parse_line_break.
  rewrite parse_single_line by done. unfold scanFresh.
  change ("**" +:+ s) with (String STAR (String STAR s)).
  rewrite scanLine_two, !Ascii.eqb_refl. cbn [andb orb negb flush isEmpty].
  rewrite scanLine_plain by done.
  change ("" +:+ s) with s. unfold flush. by destruct s.
Qed.

Lemma toggles_reset_at_line_break_witness :
  plainText "a" = true ∧ countChar LF "a" = 0
  ∧ parseMarkdownToSegments ("**" +:+ "a" +:+ String LF "b")
    = mkSegment "a" true false false false
        :: lineBreak :: parseMarkdownToSegments "b".
Proof.
  split; [reflexivity|]. split; [reflexivity|].
  apply (toggles_reset_at_line_break "" "b" "a"); [reflexivity|reflexivity|].
  discriminate.
Defined.

(** C5, as worded, fails: after an unterminated [**] the text of the next
    line is emitted with [bold = false]. *)
Lemma unterminated_bold_ends_with_line :
  parseMarkdownToSegments unterminatedBoldInput
  = [ mkSegment "a" true false false false; lineBreak;
      mkSegment "b" false false false false ]
  ∧ ¬ (∀ run, run ∈ parseMarkdownToSegments unterminatedBoldInput →
         newline run = false → bold run = true).
Proof.
  assert (parseMarkdownToSegments unterminatedBoldInput
          = [ mkSegment "a" true false false false; lineBreak;
              mkSegment "b" false false false false ]) as H by (by vm_compute).
  split; [done|]. intros Hall. rewrite H in Hall.
  specialize (Hall (mkSegment "b" false false false false)).
  discriminate Hall; [|done]. by do 2 right; left.
Qed.

Lemma flush_nonempty (buffer : string) (b i u : bool) (segments : list TextSegment) :
  buffer ≠ "" → flush buffer b i u segments = segments ++ [mkSegment buffer b i u false].
Proof. unfold flush. by destruct buffer. Qed.

Lemma sapp_not_empty (s : string) (c : ascii) : s +:+ chr c ≠ "".
Proof. by destruct s. Qed.

(** What is in the buffer goes out as the start of the next run, under the
    style the scanner is in, followed by some of the text that comes next. *)
Lemma scanLine_emits (r : string) :
  ∀ prev b i u buffer segments,
    buffer ≠ "" →
    ∃ more rest after,
      r = more +:+ rest
      ∧ scanLine r prev b i u buffer segments
        = segments ++ mkSegment (buffer +:+ more) b i u false :: after.
Proof.
  induction r as [|c r IH]; intros prev b i u buffer segments Hbuf.
  - exists "", "", []. split; [done|]. rewrite sapp_nil_r. cbn [scanLine].
    by apply flush_nonempty.
  - destruct r as [|c2 r].
    + rewrite scanLine_one. destruct (_ && _).
      * exists "", (chr c), []. split; [done|]. rewrite sapp_nil_r.
        cbn [flush isEmpty]. by apply flush_nonempty.
      * exists (chr c), "", []. split; [done|].
        apply flush_nonempty, sapp_not_empty.
    + rewrite scanLine_two.
      repeat match goal with
             | |- context [if ?c then _ else _] => destruct c
             end;
        try (rewrite scanLine_app, flush_nonempty by done;
             rewrite <- app_assoc; exists "", (String c (String c2 r));
             rewrite sapp_nil_r; by eexists).
      destruct (IH (Some c) b i u (buffer +:+ chr c) segments
                  (sapp_not_empty _ _)) as (more & rest & after & Hr & ->).
      exists (chr c +:+ more), rest, after. split.
      * by rewrite Hr.
      * by rewrite sapp_assoc.
Qed.

(** The scanner gets to every backslash, since no marker ends in one; the
    buffer it has then is the end of the text scanned so far. *)
Lemma scanLine_reaches_backslash (pre rest : string) :
  ∀ prev b i u buffer segments,
    ∃ prev' b' i' u' buffer' segments' p,
      buffer +:+ pre = p +:+ buffer'
      ∧ scanLine (pre +:+ String BACKSLASH rest) prev b i u buffer segments
        = scanLine (String BACKSLASH rest) prev' b' i' u' buffer' segments'.
Proof.
  induction pre as [|c|c1 c2 s IHs IHc] using string_ind2;
    intros prev b i u buffer segments.
  - exists prev, b, i, u, buffer, segments, "". by rewrite sapp_nil_r.
  - change (String c "" +:+ String BACKSLASH rest)
      with (String c (String BACKSLASH rest)).
    rewrite scanLine_two.
    change (Ascii.eqb BACKSLASH STAR) with false.
    change (Ascii.eqb BACKSLASH UNDERSCORE) with false.
    change (Ascii.eqb BACKSLASH TILDE) with false.
    rewrite !andb_false_r. cbn [orb].
    destruct (_ && _).
    + eexists _, _, _, _, "", _, (buffer +:+ chr c).
      split; [by rewrite sapp_nil_r|done].
    + eexists _, _, _, _, (buffer +:+ chr c), _, "". by split.
  - rewrite !sapp_cons, scanLine_two. rewrite <- sapp_cons.
    repeat match goal with
           | |- context [if ?c then _ else _] => destruct c
           end;
      match goal with
      | |- context [scanLine (s +:+ _) ?pv ?sb ?si ?su "" ?sg] =>
          destruct (IHs pv sb si su "" sg)
            as (prev' & b' & i' & u' & buffer' & segments' & p & Hp & ->);
          exists prev', b', i', u', buffer', segments',
                 (buffer +:+ String c1 (String c2 p));
          split; [|done];
          change ("" +:+ s) with s in Hp; rewrite Hp;
          by rewrite sapp_assoc
      | |- context [scanLine (String c2 s +:+ _) ?pv ?sb ?si ?su "" ?sg] =>
          destruct (IHc pv sb si su "" sg)
            as (prev' & b' & i' & u' & buffer' & segments' & p & Hp & ->);
          exists prev', b', i', u', buffer', segments',
                 (buffer +:+ String c1 p);
          split; [|done];
          change ("" +:+ String c2 s) with (String c2 s) in Hp; rewrite Hp;
          by rewrite sapp_assoc
      | |- context [scanLine (String c2 s +:+ _) ?pv ?sb ?si ?su ?buf ?sg] =>
          destruct (IHc pv sb si su buf sg)
            as (prev' & b' & i' & u' & buffer' & segments' & p & Hp & ->);
          exists prev', b', i', u', buffer', segments', p;
          split; [|done];
          by rewrite <- Hp, sapp_assoc
      end.
Qed.

(** An escaped single marker: the backslash and the marker both go to the
    buffer, and no toggle changes. *)
Lemma scanLine_escaped (m : ascii) (post : string) :
  (m = STAR ∨ m = UNDERSCORE) → isChar (nextOf post) m = false →
  ∀ prev b i u buffer segments,
    scanLine (String BACKSLASH (String m post)) prev b i u buffer segments
    = scanLine post (Some m) b i u
        (buffer +:+ String BACKSLASH (chr m)) segments.
Proof.
  intros Hm Hpost prev b i u buffer segments.
  rewrite scanLine_two.
  change (Ascii.eqb BACKSLASH STAR) with false.
  change (Ascii.eqb BACKSLASH UNDERSCORE) with false.
  change (Ascii.eqb BACKSLASH TILDE) with false.
  cbn [andb orb].
  replace (buffer +:+ String BACKSLASH (chr m))
    with ((buffer +:+ chr BACKSLASH) +:+ chr m) by (by rewrite sapp_assoc).
  assert (Ascii.eqb m TILDE = false) as Htilde by (by destruct Hm as [-> | ->]).
  destruct post as [|n p].
  - rewrite scanLine_one. cbn [isChar]. rewrite Ascii.eqb_refl.
    by rewrite andb_false_r.
  - rewrite scanLine_two. cbn [isChar nextOf] in *. rewrite Ascii.eqb_refl.
    rewrite Htilde. cbn [negb andb]. rewrite !andb_false_r.
    destruct Hm as [-> | ->]; rewrite Hpost;
      rewrite ?andb_false_r, ?andb_false_l; done.
Qed.

Lemma countChar_app (c : ascii) (s r : string) :
  countChar c (s +:+ r) = countChar c s + countChar c r.
Proof.
  induction s as [|d s IH]; [done|]. rewrite sapp_cons. cbn [countChar].
  rewrite IH. lia.
Qed.

Lemma split_last_LF (s : string) :
  countChar LF s = 0
  ∨ ∃ a b, s = a +:+ String LF b ∧ countChar LF b = 0.
Proof.
  induction s as [|c s IH]; [by left|].
  destruct IH as [Hs | (a & b & -> & Hb)].
  - cbn [countChar]. destruct (Ascii.eqb c LF) eqn:Hc.
    + apply Ascii.eqb_eq in Hc as ->. right. by exists "", s.
    + left. by rewrite Hs.
  - right. by exists (String c a), b.
Qed.

Lemma split_first_LF (s : string) :
  countChar LF s = 0
  ∨ ∃ a b, s = a +:+ String LF b ∧ countChar LF a = 0.
Proof.
  induction s as [|c s IH]; [by left|].
  cbn [countChar]. destruct (Ascii.eqb c LF) eqn:Hc.
  - apply Ascii.eqb_eq in Hc as ->. right. by exists "", s.
  - destruct IH as [Hs | (a & b & -> & Ha)].
    + left. by rewrite Hs.
    + right. exists (String c a), b. split; [done|].
      cbn [countChar]. by rewrite Hc, Ha.
Qed.

Lemma emitsEscaped_after (m : ascii) (a pre post : string)
    (first segments : list TextSegment) :
  emitsEscaped pre post m segments →
  emitsEscaped (a +:+ String LF pre) post m (first ++ lineBreak :: segments).
Proof.
  intros (before & after & s1 & s2 & p & q & b & i & u & -> & -> & ->).
  exists (first ++ lineBreak :: before), after, s1, s2,
         (a +:+ String LF p), q, b, i, u.
  split; [by rewrite <- app_assoc|]. split; [|done].
  by rewrite sapp_assoc.
Qed.

Lemma emitsEscaped_before (m : ascii) (pre post b : string)
    (segments last : list TextSegment) :
  emitsEscaped pre post m segments →
  emitsEscaped pre (post +:+ String LF b) m (segments ++ lineBreak :: last).
Proof.
  intros (before & after & s1 & s2 & p & q & sb & si & su & -> & -> & ->).
  exists before, (after ++ lineBreak :: last), s1, s2, p,
         (q +:+ String LF b), sb, si, su.
  split; [by rewrite <- app_assoc|]. split; [done|].
  by rewrite sapp_assoc.
Qed.

Lemma escaped_in_line (m : ascii) (pre post : string) :
  (m = STAR ∨ m = UNDERSCORE) → isChar (nextOf post) m = false →
  countChar LF pre = 0 → countChar LF post = 0 →
  emitsEscaped pre post m
    (parseMarkdownToSegments (pre +:+ String BACKSLASH (String m post))).
Proof.
  intros Hm Hpost Hpre Hlf.
  rewrite parse_single_line.
  2:{ rewrite countChar_app. cbn [countChar]. rewrite Hpre, Hlf.
      by destruct Hm as [-> | ->]. }
  unfold scanFresh.
  destruct (scanLine_reaches_backslash pre (String m post)
              None false false false "" [])
    as (prev' & b' & i' & u' & buffer' & segments' & p & Hp & ->).
  rewrite scanLine_escaped by done.
  destruct (scanLine_emits post (Some m) b' i' u'
              (buffer' +:+ String BACKSLASH (chr m)) segments')
    as (more & rest & after & Hrest & ->).
  { by destruct buffer'. }
  exists segments', after, buffer', more, p, rest, b', i', u'.
  split; [by rewrite sapp_assoc|]. by split.
Qed.

(** C10: a single [*] or [_] right after a backslash toggles nothing, and
    neither character is dropped: the scanner appends both to the buffer
    with every toggle as it was, and the segmented text has a run in which
    the backslash and the marker stand as written, between the text that
    precedes the backslash and the text that follows the marker. *)
Theorem escaped_marker_is_literal (pre post : string) (m : ascii) :
  (m = STAR ∨ m = UNDERSCORE) → isChar (nextOf post) m = false →
  (∀ prev b i u buffer segments,
     scanLine (String BACKSLASH (String m post)) prev b i u buffer segments
     = scanLine post (Some m) b i u
         (buffer +:+ String BACKSLASH (chr m)) segments)
  ∧ emitsEscaped pre post m
      (parseMarkdownToSegments (pre +:+ String BACKSLASH (String m post))).
Proof.
  intros Hm Hpost. split; [by apply scanLine_escaped|].
  assert (∀ pre', countChar LF pre' = 0 →
            emitsEscaped pre' post m
              (parseMarkdownToSegments
                 (pre' +:+ String BACKSLASH (String m post)))) as Hline.
  { intros pre' Hpre'.
    destruct (split_first_LF post) as [Hlf | (p & q & -> & Hp)].
    - by apply escaped_in_line.
    - replace (pre' +:+ String BACKSLASH (String m (p +:+ String LF q)))
        with ((pre' +:+ String BACKSLASH (String m p)) +:+ String LF q)
        by (by rewrite sapp_assoc).
      rewrite parse_line_break.
      apply emitsEscaped_before, escaped_in_line; [done| |done|done].
      by destruct p. }
  destruct (split_last_LF pre) as [Hlf | (a & b & -> & Hb)].
  - by apply Hline.
  - rewrite sapp_assoc, sapp_cons, parse_line_break.
    by apply emitsEscaped_after, Hline.
Qed.

Lemma escaped_marker_is_literal_witness :
  (STAR = STAR ∨ STAR = UNDERSCORE) ∧ isChar (nextOf "b*") STAR = false
  ∧ emitsEscaped "*a" "b*" STAR
      (parseMarkdownToSegments ("*a" +:+ String BACKSLASH (String STAR "b*"))).
Proof.
  split; [by left|]. split; [reflexivity|].
  apply (escaped_marker_is_literal "*a" "b*" STAR); [by left|reflexivity].
Defined.

End MarkdownClaims.

(** ** Wrapping and pagination *)

Module PdfProps.
Import JS Markdown Pdf Spec StringProps.

Lemma fold_left_inv {A B} (P : A → Prop) (f : A → B → A) (l : list B) (a : A) :
  P a → (∀ a b, P a → P (f a b)) → P (fold_left f l a).
Proof.
  intros Ha Hstep. revert a Ha.
  induction l as [|b l IH]; intros a Ha; [done|]. apply IH. by apply Hstep.
Qed.

Lemma isNil_true {A} (l : list A) : isNil l = true ↔ l = [].
Proof. by destruct l. Qed.

Lemma isNil_false {A} (l : list A) : isNil l = false ↔ l ≠ [].
Proof. by destruct l. Qed.

Section Wrap.
Variable widthOfString : string → string → Z.
Variable maxWidth : Z.

Local Abbreviation wordStep := (wordStep widthOfString maxWidth).
Local Abbreviation segmentStep := (segmentStep widthOfString maxWidth).
Local Abbreviation splitIntoLines := (splitIntoLines widthOfString maxWidth).
Local Abbreviation lineWidth := (lineWidth widthOfString).
Local Abbreviation fragmentWidth := (fragmentWidth widthOfString).
Local Abbreviation noEmptyLine := (λ st, Forall (λ line : list TextSegment, line ≠ []) (lines st)).

(** *** No empty line is ever closed *)

Lemma wordStep_noEmptyLine (segment : TextSegment) (st : WrapState) (w : string) :
  noEmptyLine st → noEmptyLine (wordStep segment st w).
Proof.
  unfold Pdf.wordStep. intros Hst.
  destruct (isEmpty w); [done|].
  destruct (_ && negb (isNil (currentLine st))) eqn:Hwrap.
  - apply andb_true_iff in Hwrap as [_ Hne%negb_true_iff%isNil_false].
    cbn [closeLine currentLine isNil andb lines].
    destruct (isEmpty (trim w)); cbn [lines];
      apply Forall_app; split; by repeat constructor.
  - by destruct (isNil (currentLine st) && isEmpty (trim w)).
Qed.

Lemma segmentStep_noEmptyLine (st : WrapState) (segment : TextSegment) :
  noEmptyLine st → noEmptyLine (segmentStep st segment).
Proof.
  unfold Pdf.segmentStep. intros Hst. destruct (newline segment).
  - cbn [lines].
    destruct (isNil (currentLine st)) eqn:Hnil; [done|].
    apply isNil_false in Hnil. apply Forall_app. split; by repeat constructor.
  - apply fold_left_inv; [done|]. intros. by apply wordStep_noEmptyLine.
Qed.

Lemma splitIntoLines_no_empty_line (segments : list TextSegment) :
  Forall (λ line, line ≠ []) (splitIntoLines segments).
Proof.
  unfold Pdf.splitIntoLines, finish.
  set (st := fold_left _ _ _).
  assert (noEmptyLine st) as Hst.
  { apply fold_left_inv; [by constructor|]. intros.
    by apply segmentStep_noEmptyLine. }
  destruct (isNil (currentLine st)) eqn:Hnil; [done|].
  apply isNil_false in Hnil. apply Forall_app. split; by repeat constructor.
Qed.

(** A line break after a line break changes nothing. *)
Lemma segmentStep_break_twice (st : WrapState) (br1 br2 : TextSegment) :
  newline br1 = true → newline br2 = true →
  segmentStep (segmentStep st br1) br2 = segmentStep st br1.
Proof. unfold Pdf.segmentStep. by intros -> ->. Qed.

(** *** Lines fit *)

Lemma lineWidth_snoc (line : list TextSegment) (f : TextSegment) :
  lineWidth (line ++ [f]) = (lineWidth line + fragmentWidth f)%Z.
Proof. unfold Pdf.lineWidth. by rewrite fold_left_app. Qed.

Lemma lineOk_single (f : TextSegment) :
  trim (text f) ≠ "" → lineOk widthOfString maxWidth [f].
Proof.
  intros Hf. split; [done|]. split.
  - unfold fitsOrAlone.
    destruct (decide (fragmentWidth f ≤ maxWidth)%Z) as [Hle|Hgt].
    + left. unfold Pdf.lineWidth. cbn [fold_left]. lia.
    + right. exists f. split; [done|lia].
  - intros g [= <-]. done.
Qed.

(** A fragment is appended to a line it fits on. *)
Lemma lineOk_snoc (line : list TextSegment) (f : TextSegment) :
  lineOk widthOfString maxWidth line →
  (lineWidth line + fragmentWidth f ≤ maxWidth)%Z →
  lineOk widthOfString maxWidth (line ++ [f]).
Proof.
  intros (Hne & _ & Hstart) Hfit. split; [by destruct line|]. split.
  - left. by rewrite lineWidth_snoc.
  - intros g Hg. apply Hstart. by destruct line.
Qed.

Lemma wordStep_inv (segment : TextSegment) (st : WrapState) (w : string) :
  wrapInv widthOfString maxWidth st →
  wrapInv widthOfString maxWidth (wordStep segment st w).
Proof.
  intros (Hlines & Hwidth & Hcur). unfold Pdf.wordStep.
  destruct (isEmpty w); [done|].
  set (f := mkSegment w (bold segment) (italic segment) (underline segment) false).
  change (widthOfString (getFontName (bold segment) (italic segment)) w)
    with (fragmentWidth f).
  destruct ((maxWidth <? currentWidth st + fragmentWidth f)%Z
            && negb (isNil (currentLine st))) eqn:Hwrap.
  - apply andb_true_iff in Hwrap as [_ Hne%negb_true_iff%isNil_false].
    destruct Hcur as [Hnil|Hok]; [done|].
    assert (Forall (lineOk widthOfString maxWidth) (lines st ++ [currentLine st]))
      as Hclosed by (apply Forall_app; split; [done|by apply Forall_singleton]).
    cbn [closeLine currentLine isNil andb lines currentWidth].
    destruct (isEmpty (trim w)) eqn:Hws.
    + split; [done|]. split; [done|by left].
    + split; [done|]. cbn [lines currentLine currentWidth app].
      split; [done|]. right. apply lineOk_single. unfold f. cbn [text].
      intros Heq. by rewrite Heq in Hws.
  - destruct (isNil (currentLine st) && isEmpty (trim w)) eqn:Hskip.
    + done.
    + split; [done|]. cbn [lines currentLine currentWidth].
      split; [by rewrite lineWidth_snoc, Hwidth|]. right.
      destruct Hcur as [Hnil|Hok].
      * rewrite Hnil in *. cbn [isNil andb app] in *.
        apply lineOk_single. unfold f. cbn [text]. intros Heq. by rewrite Heq in Hskip.
      * apply lineOk_snoc; [done|]. rewrite <- Hwidth.
        destruct Hok as [Hne%isNil_false _]. rewrite Hne in Hwrap.
        cbn [negb] in Hwrap. rewrite andb_true_r in Hwrap.
        by apply Z.ltb_ge in Hwrap.
Qed.

Lemma segmentStep_inv (st : WrapState) (segment : TextSegment) :
  wrapInv widthOfString maxWidth st →
  wrapInv widthOfString maxWidth (segmentStep st segment).
Proof.
  intros Hst. unfold Pdf.segmentStep. destruct (newline segment).
  - destruct Hst as (Hlines & Hwidth & Hcur).
    split; [|split; [done|by left]]. cbn [lines].
    destruct (isNil (currentLine st)) eqn:Hnil; [done|].
    apply isNil_false in Hnil. destruct Hcur as [?|Hok]; [done|].
    apply Forall_app. split; [done|by apply Forall_singleton].
  - apply fold_left_inv; [done|]. intros. by apply wordStep_inv.
Qed.

Lemma splitIntoLines_inv (segments : list TextSegment) :
  Forall (lineOk widthOfString maxWidth) (splitIntoLines segments).
Proof.
  unfold Pdf.splitIntoLines, finish.
  set (st := fold_left _ _ _).
  assert (wrapInv widthOfString maxWidth st) as (Hlines & _ & Hcur).
  { apply fold_left_inv.
    - split; [by constructor|]. split; [done|by left].
    - intros. by apply segmentStep_inv. }
  destruct (isNil (currentLine st)) eqn:Hnil; [done|].
  apply isNil_false in Hnil. destruct Hcur as [?|Hok]; [done|].
  apply Forall_app. split; [done|by apply Forall_singleton].
Qed.

(** A token that does not fit closes a current line that has fragments. *)
Lemma wordStep_wraps (segment : TextSegment) (st : WrapState) (w : string) :
  w ≠ "" → currentLine st ≠ [] →
  (maxWidth < currentWidth st
              + widthOfString (getFontName (bold segment) (italic segment)) w)%Z →
  lines (wordStep segment st w) = lines st ++ [currentLine st].
Proof.
  intros Hw Hcur Hwide. unfold Pdf.wordStep.
  destruct w as [|c w]; [done|]. cbn [isEmpty].
  apply isNil_false in Hcur. rewrite Hcur. apply Z.ltb_lt in Hwide.
  rewrite Hwide. cbn [andb negb closeLine currentLine isNil lines].
  by destruct (isEmpty (trim (String c w))).
Qed.

End Wrap.

Section Pagination.
Variable num : Type.
Variable add mul : num → num → num.
Variable ofNat : nat → num.
Variable format : PaperFormat num.
Variable data : list (gmap string string).

Local Abbreviation C := (columns format).
Local Abbreviation R := (rows format).
Local Abbreviation L := (labelsPerPage format).
Local Abbreviation n := (length data).
Local Abbreviation placementOf := (placementOf add mul ofNat format).
Local Abbreviation colLoop := (colLoop add mul ofNat format data).
Local Abbreviation rowLoop := (rowLoop add mul ofNat format data).
Local Abbreviation pageLoop := (pageLoop add mul ofNat format data).

(** The position computed in the loops, read back by division. *)
Lemma index_decomp (page row col : nat) :
  row < R → col < C →
  let i := page * L + row * C + col in
  i / L = page ∧ (i mod L) / C = row ∧ (i mod L) mod C = col.
Proof.
  intros Hrow Hcol i. unfold labelsPerPage in *.
  assert (row * C + col < C * R) as Hlt by nia.
  assert (i / (C * R) = page) as Hdiv.
  { symmetry. apply (Nat.div_unique i (C * R) page (row * C + col)); [done|].
    unfold i. lia. }
  assert (i mod (C * R) = row * C + col) as Hmod.
  { symmetry. apply (Nat.mod_unique i (C * R) page (row * C + col)); [done|].
    unfold i. lia. }
  split; [done|]. rewrite Hmod. split.
  - symmetry. apply (Nat.div_unique _ C row col); [done|lia].
  - symmetry. apply (Nat.mod_unique _ C row col); [done|lia].
Qed.

Lemma placementOf_index (page row col : nat) :
  row < R → col < C →
  placementOf (page * L + row * C + col)
  = mkPlacement page row col (page * L + row * C + col)
      (boxX add mul ofNat format col) (boxY add mul ofNat format row).
Proof.
  intros Hrow Hcol. unfold Pdf.placementOf.
  destruct (index_decomp page row col Hrow Hcol) as (-> & -> & ->). done.
Qed.

Lemma seq_min_split (a x y m : nat) :
  seq a (min (x + y) m) = seq a (min x m) ++ seq (a + x) (min y (m - x)).
Proof.
  destruct (decide (m ≤ x)) as [Hle|Hgt].
  - replace (min (x + y) m) with m by lia. replace (min x m) with m by lia.
    replace (min y (m - x)) with 0 by lia. by rewrite app_nil_r.
  - replace (min (x + y) m) with (x + min y (m - x)) by lia.
    replace (min x m) with x by lia. apply seq_app.
Qed.

Lemma colLoop_seq (k page row col : nat) :
  row < R → col + k ≤ C →
  let i := page * L + row * C + col in
  colLoop k page row col = map placementOf (seq i (min k (n - i))).
Proof.
  revert col. induction k as [|k IH]; intros col Hrow Hcol i; [done|].
  cbn [Pdf.colLoop]. fold i.
  destruct (n <=? i) eqn:Hend.
  - apply Nat.leb_le in Hend. by replace (n - i) with 0 by lia.
  - apply Nat.leb_gt in Hend.
    destruct (lookup_lt_is_Some_2 data i Hend) as [record ->].
    replace (min (S k) (n - i)) with (S (min k (n - S i))) by lia.
    cbn [seq map]. f_equal.
    + unfold i. rewrite placementOf_index; [done|done|lia].
    + rewrite IH; [|done|lia]. cbn zeta.
      by replace (page * L + row * C + S col) with (S i) by (unfold i; lia).
Qed.

Lemma rowLoop_seq (k page row : nat) :
  row + k ≤ R →
  let i := page * L + row * C in
  rowLoop k page row = map placementOf (seq i (min (k * C) (n - i))).
Proof.
  revert row. induction k as [|k IH]; intros row Hrow i; [done|].
  cbn [Pdf.rowLoop]. rewrite colLoop_seq by lia. rewrite IH by lia. cbn zeta.
  replace (page * L + row * C + 0) with i by (unfold i; lia).
  replace (page * L + S row * C) with (i + C) by (unfold i; lia).
  replace (S k * C) with (C + k * C) by lia.
  rewrite seq_min_split, map_app.
  by replace (n - (i + C)) with (n - i - C) by lia.
Qed.

Lemma pageLoop_seq (k page : nat) :
  pageLoop k page
  = map placementOf (seq (page * L) (min (k * L) (n - page * L))).
Proof.
  revert page. induction k as [|k IH]; intros page; [done|].
  cbn [Pdf.pageLoop]. rewrite rowLoop_seq by lia. rewrite IH. cbn zeta.
  replace (page * L + 0 * C) with (page * L) by lia.
  replace (S page * L) with (page * L + L) by lia.
  replace (S k * L) with (L + k * L) by lia.
  replace (R * C) with L by (unfold labelsPerPage; lia).
  rewrite seq_min_split, map_app.
  by replace (n - (page * L + L)) with (n - page * L - L) by lia.
Qed.

(** [Math.ceil(n / L)] for [L > 0]: the least number of pages that hold
    all records. *)
Lemma totalPages_ceil :
  0 < L →
  ∃ p, totalPages format data = Some p
       ∧ n ≤ p * L ∧ ∀ q, n ≤ q * L → p ≤ q.
Proof.
  intros HL. unfold totalPages. destruct L as [|l] eqn:HLeq; [lia|].
  eexists. split; [done|].
  pose proof (Nat.div_mod_eq (n + S l - 1) (S l)) as Hdm.
  pose proof (Nat.mod_upper_bound (n + S l - 1) (S l)) as Hr.
  split; [nia|]. intros q Hq. nia.
Qed.

Lemma generatePDF_row_major :
  0 < C → 0 < R →
  generatePDF add mul ofNat format data
  = Some (map placementOf (seq 0 n)).
Proof.
  intros HC HR. assert (0 < L) as HL by (unfold labelsPerPage; nia).
  destruct (totalPages_ceil HL) as (p & Hp & Hle & _).
  unfold generatePDF. rewrite Hp, pageLoop_seq.
  by replace (min (p * L) (n - 0 * L)) with n by lia.
Qed.

End Pagination.

End PdfProps.

Module PdfClaims.
Import JS Markdown Pdf Spec StringProps PdfProps.

(** C4: every line produced by the greedy wrap fits into the maximum width
    (the sum of its fragments' measured widths is at most [maxWidth]), or
    it consists of one single fragment that is wider than [maxWidth] by
    itself; no line is empty and no line begins with a whitespace-only
    fragment; and a token whose width would take a non-empty current line
    past [maxWidth] closes that line.  This holds for every measurement
    function, the non-negative ones included. *)
Theorem wrap_width_bound (widthOfString : string → string → Z) (maxWidth : Z)
    (segments : list TextSegment) :
  Forall (λ line,
            line ≠ []
            ∧ ((lineWidth widthOfString line ≤ maxWidth)%Z
               ∨ ∃ f, line = [f] ∧ (maxWidth < fragmentWidth widthOfString f)%Z)
            ∧ ∀ f, head line = Some f → trim (text f) ≠ "")
         (splitIntoLines widthOfString maxWidth segments)
  ∧ ∀ segment st w,
      w ≠ "" → currentLine st ≠ [] →
      (maxWidth < currentWidth st
                  + widthOfString (getFontName (bold segment) (italic segment)) w)%Z →
      lines (wordStep widthOfString maxWidth segment st w)
      = lines st ++ [currentLine st].
Proof.
  split.
  - apply (splitIntoLines_inv widthOfString maxWidth segments).
  - intros segment st w. apply wordStep_wraps.
Qed.

(** C9, as amended: a line-break run closes the current line only when that
    line holds a fragment; on an empty current line it adds nothing.  A
    second line break right after a first one therefore changes nothing, and
    the wrapped output never holds an empty line. *)
Theorem line_break_closes_only_nonempty_line
    (widthOfString : string → string → Z) (maxWidth : Z) (st : WrapState)
    (pre post : list TextSegment) (br1 br2 : TextSegment) :
  newline br1 = true → newline br2 = true →
  (currentLine st = [] →
   segmentStep widthOfString maxWidth st br1 = mkWrap (lines st) [] 0)
  ∧ (currentLine st ≠ [] →
     segmentStep widthOfString maxWidth st br1
     = mkWrap (lines st ++ [currentLine st]) [] 0)
  ∧ splitIntoLines widthOfString maxWidth (pre ++ br1 :: br2 :: post)
    = splitIntoLines widthOfString maxWidth (pre ++ br1 :: post)
  ∧ Forall (λ line, line ≠ []) (splitIntoLines widthOfString maxWidth pre).
Proof.
  intros H1 H2. split; [|split; [|split]].
  - intros Hnil. unfold segmentStep. by rewrite H1, Hnil.
  - intros Hne%isNil_false. unfold segmentStep. by rewrite H1, Hne.
  - unfold splitIntoLines. rewrite !fold_left_app. cbn [fold_left].
    by rewrite segmentStep_break_twice.
  - apply splitIntoLines_no_empty_line.
Qed.

Lemma line_break_closes_only_nonempty_line_witness :
  newline lineBreak = true
  ∧ splitIntoLines fixedPitch 100 ([word "a"] ++ lineBreak :: lineBreak :: [word "b"])
    = splitIntoLines fixedPitch 100 ([word "a"] ++ lineBreak :: [word "b"]).
Proof.
  split; [reflexivity|].
  exact (proj1 (proj2 (proj2
    (line_break_closes_only_nonempty_line fixedPitch 100 (mkWrap [] [] 0)
       [word "a"] [word "b"] lineBreak lineBreak eq_refl eq_refl)))).
Defined.

(** C9, as worded, fails: three consecutive line breaks between two words
    give two lines, not four, and a line break met on an empty current line
    closes no line. *)
Lemma consecutive_breaks_collapse :
  splitIntoLines fixedPitch 100 threeBreaksInput = [[word "a"]; [word "b"]]
  ∧ length (splitIntoLines fixedPitch 100 threeBreaksInput) ≠ 4
  ∧ ¬ breakAlwaysClosesLine fixedPitch 100.
Proof.
  split; [by vm_compute|]. split; [by vm_compute|].
  intros H. specialize (H (mkWrap [] [] 0) lineBreak eq_refl).
  by vm_compute in H.
Qed.

Lemma wrap_width_bound_witness :
  "big" ≠ "" ∧ [word "hello"] ≠ []
  ∧ (30 < 30 + fixedPitch (getFontName false false) "big")%Z
  ∧ lines (wordStep fixedPitch 30 (word "big") (mkWrap [] [word "hello"] 30) "big")
    = [] ++ [[word "hello"]].
Proof.
  split; [discriminate|]. split; [discriminate|]. split; [reflexivity|].
  apply (proj2 (wrap_width_bound fixedPitch 30 []) (word "big")
           (mkWrap [] [word "hello"] 30) "big");
    [discriminate|discriminate|reflexivity].
Defined.

(** C3: pagination is row-major.  With at least one column and one row, the
    labels are drawn in the order of the records, and record [i] is drawn on
    page [i div labelsPerPage], at row [(i mod labelsPerPage) div columns]
    and column [(i mod labelsPerPage) mod columns], where [labelsPerPage =
    columns * rows], with its box at [x = marginLeft + column * (labelWidth +
    horizontalGap)] and [y = marginTop + row * (labelHeight + verticalGap)];
    the number of pages is the ceiling of [recordCount / labelsPerPage], the
    least number of pages that hold all records.  For 7 records on a 2 x 3
    grid: 6 labels per page, 2 pages, and record 6 on page 1, row 0,
    column 0. *)
Theorem pagination_row_major {num : Type} (add mul : num → num → num)
    (ofNat : nat → num) (format : PaperFormat num)
    (data : list (gmap string string)) :
  0 < columns format → 0 < rows format →
  labelsPerPage format = columns format * rows format
  ∧ generatePDF add mul ofNat format data
    = Some (map (λ i,
                   let withinPage := i mod labelsPerPage format in
                   let r := withinPage / columns format in
                   let c := withinPage mod columns format in
                   mkPlacement (i / labelsPerPage format) r c i
                     (add (marginLeft format)
                        (mul (ofNat c)
                           (add (labelWidth format) (horizontalGap format))))
                     (add (marginTop format)
                        (mul (ofNat r)
                           (add (labelHeight format) (verticalGap format)))))
                (seq 0 (length data)))
  ∧ (∃ p, totalPages format data = Some p
          ∧ length data ≤ p * labelsPerPage format
          ∧ ∀ q, length data ≤ q * labelsPerPage format → p ≤ q)
  ∧ (columns format = 2 → rows format = 3 → length data = 7 →
     labelsPerPage format = 6
     ∧ totalPages format data = Some 2
     ∧ ∃ x y, generatePDF add mul ofNat format data
              ≫= (λ placements, placements !! 6)
              = Some (mkPlacement 1 0 0 6 x y)).
Proof.
  intros HC HR. split; [done|]. split; [|split].
  - by rewrite generatePDF_row_major.
  - apply totalPages_ceil. unfold labelsPerPage. nia.
  - intros Hc Hr Hn. split; [|split].
    + unfold labelsPerPage. by rewrite Hc, Hr.
    + unfold totalPages, labelsPerPage. by rewrite Hc, Hr, Hn.
    + rewrite generatePDF_row_major by done. rewrite Hn.
      unfold placementOf, labelsPerPage. rewrite Hc, Hr.
      by eexists _, _.
Qed.

Lemma pagination_row_major_witness :
  0 < columns sixUpFormat ∧ 0 < rows sixUpFormat
  ∧ generatePDF Z.add Z.mul Z.of_nat sixUpFormat sevenRecords
    = Some [ mkPlacement 0 0 0 0 10%Z 20%Z; mkPlacement 0 0 1 1 115%Z 20%Z;
             mkPlacement 0 1 0 2 10%Z 76%Z; mkPlacement 0 1 1 3 115%Z 76%Z;
             mkPlacement 0 2 0 4 10%Z 132%Z; mkPlacement 0 2 1 5 115%Z 132%Z;
             mkPlacement 1 0 0 6 10%Z 20%Z ].
Proof.
  split; [cbn; lia|]. split; [cbn; lia|].
  exact (proj1 (proj2
    (pagination_row_major Z.add Z.mul Z.of_nat sixUpFormat sevenRecords
       ltac:(cbn; lia) ltac:(cbn; lia)))).
Defined.

End PdfClaims.

(** * Further properties of the code *)

(** ** Trimming and the line tokenizer *)

Module CsvExtras.
Import JS Csv Markdown Spec Aux StringProps CsvProps CsvClaims.

Lemma trimStart_startsClean (s : string) : startsClean (trimStart s).
Proof.
  induction s as [|c s IH]; [done|]. cbn [trimStart].
  by destruct (isWhiteSpace c) eqn:Hc.
Qed.

Lemma startsClean_trimStart (s : string) : startsClean s → trimStart s = s.
Proof. destruct s as [|c s]; [done|]. cbn. by intros ->. Qed.

Lemma trimEnd_cons (c : ascii) (s : string) :
  trimEnd (String c s)
  = match trimEnd s with
    | "" => if isWhiteSpace c then "" else chr c
    | r => String c r
    end.
Proof. done. Qed.

Lemma trimEnd_startsClean (s : string) : startsClean s → startsClean (trimEnd s).
Proof.
  destruct s as [|c s]; [done|]. cbn [startsClean]. intros Hc.
  rewrite trimEnd_cons, Hc. by destruct (trimEnd s).
Qed.

Lemma trimEnd_idem (s : string) : trimEnd (trimEnd s) = trimEnd s.
Proof.
  induction s as [|c s IH]; [done|]. rewrite trimEnd_cons.
  destruct (trimEnd s) as [|d r] eqn:Hr.
  - destruct (isWhiteSpace c) eqn:Hc; [done|].
    unfold chr. rewrite trimEnd_cons. cbn [trimEnd]. by rewrite Hc.
  - rewrite trimEnd_cons, IH. done.
Qed.

(** [trim] is idempotent. *)
Lemma trim_idem (s : string) : trim (trim s) = trim s.
Proof.
  unfold trim.
  rewrite (startsClean_trimStart (trimEnd (trimStart s))).
  - apply trimEnd_idem.
  - apply trimEnd_startsClean, trimStart_startsClean.
Qed.

(** One turn of the tokenizer outside quotes, on a character that is no
    quote. *)
Lemma parseLineFrom_plain (d : string) (c : ascii) (rest current : string)
    (fields : list string) :
  Ascii.eqb c DQUOTE = false →
  parseLineFrom d (String c rest) current false fields
  = if String.eqb (chr c) d
    then parseLineFrom d rest "" false (fields ++ [trim current])
    else parseLineFrom d rest (current +:+ chr c) false fields.
Proof. intros Hc. cbn [parseLineFrom]. by rewrite Hc. Qed.

Lemma parseLineFrom_open (d rest current : string) (fields : list string) :
  parseLineFrom d (String DQUOTE rest) current false fields
  = parseLineFrom d rest current true fields.
Proof. cbn [parseLineFrom]. by rewrite Ascii.eqb_refl. Qed.

(** One turn of the tokenizer with at least two characters left. *)
Lemma parseLineFrom_two (d : string) (c1 c2 : ascii) (s current : string)
    (q : bool) (fields : list string) :
  parseLineFrom d (String c1 (String c2 s)) current q fields
  = if q then
      if Ascii.eqb c1 DQUOTE then
        if Ascii.eqb c2 DQUOTE
        then parseLineFrom d s (current +:+ chr DQUOTE) true fields
        else parseLineFrom d (String c2 s) current false fields
      else parseLineFrom d (String c2 s) (current +:+ chr c1) true fields
    else
      if Ascii.eqb c1 DQUOTE then parseLineFrom d (String c2 s) current true fields
      else if String.eqb (chr c1) d
      then parseLineFrom d (String c2 s) "" false (fields ++ [trim current])
      else parseLineFrom d (String c2 s) (current +:+ chr c1) false fields.
Proof. done. Qed.

(** The last turn of the tokenizer. *)
Lemma parseLineFrom_one (d : string) (c : ascii) (current : string)
    (q : bool) (fields : list string) :
  parseLineFrom d (String c "") current q fields
  = if q then
      if Ascii.eqb c DQUOTE then fields ++ [trim current]
      else fields ++ [trim (current +:+ chr c)]
    else
      if Ascii.eqb c DQUOTE then fields ++ [trim current]
      else if String.eqb (chr c) d
      then (fields ++ [trim current]) ++ [trim ""]
      else fields ++ [trim (current +:+ chr c)].
Proof. done. Qed.

(** The fields pushed so far stay as they are. *)
Lemma parseLineFrom_app (d line : string) :
  ∀ current q fields,
    parseLineFrom d line current q fields
    = fields ++ parseLineFrom d line current q [].
Proof.
  induction line as [|c|c1 c2 s IHs IHc] using string_ind2;
    intros current q fields.
  - done.
  - rewrite !parseLineFrom_one.
    repeat match goal with
           | |- context [if ?b then _ else _] => destruct b
           end; try done.
    by rewrite <- app_assoc.
  - rewrite !parseLineFrom_two.
    repeat match goal with
           | |- context [if ?b then _ else _] => destruct b
           end;
      first [ apply IHs | apply IHc
            | rewrite IHc, (IHc _ _ ([] ++ _)); by rewrite <- app_assoc ].
Qed.

Lemma chr_eqb (x c : ascii) : String.eqb (chr x) (chr c) = Ascii.eqb x c.
Proof.
  destruct (Ascii.eqb_spec x c) as [->|Hne].
  - apply String.eqb_refl.
  - apply String.eqb_neq. intros [= ->]. done.
Qed.

Lemma parseLineFrom_trimmed (d line : string) :
  ∀ current q, Forall (λ f, trim f = f) (parseLineFrom d line current q []).
Proof.
  induction line as [|c|c1 c2 s IHs IHc] using string_ind2; intros current q.
  - apply Forall_singleton, trim_idem.
  - rewrite parseLineFrom_one.
    repeat match goal with
           | |- context [if ?b then _ else _] => destruct b
           end;
      repeat (apply Forall_app; split);
      try apply Forall_nil_2; apply Forall_singleton, trim_idem.
  - rewrite parseLineFrom_two.
    repeat match goal with
           | |- context [if ?b then _ else _] => destruct b
           end;
      first [ apply IHs | apply IHc | idtac ].
    rewrite parseLineFrom_app. apply Forall_app. split; [|apply IHc].
    apply Forall_singleton, trim_idem.
Qed.

(** X1: every field returned by [parseLine] is trimmed: trimming it again
    changes nothing, whatever the line, the delimiter and the quoting. *)
Theorem parseLine_fields_trimmed (line d : string) :
  Forall (λ f, trim f = f) (parseLine line d).
Proof. apply parseLineFrom_trimmed. Qed.

Lemma parseLineFrom_count (c : ascii) (line : string) :
  countChar DQUOTE line = 0 →
  ∀ current fields,
    length (parseLineFrom (chr c) line current false fields)
    = length fields + S (countChar c line).
Proof.
  induction line as [|x line IH]; intros Hq current fields.
  - cbn [parseLineFrom countChar]. rewrite length_app. cbn [length]. lia.
  - cbn [countChar] in *. destruct (Ascii.eqb x DQUOTE) eqn:Hx; [done|].
    rewrite parseLineFrom_plain by done. rewrite chr_eqb.
    destruct (Ascii.eqb x c); rewrite IH by done.
    + rewrite length_app. cbn [length]. lia.
    + lia.
Qed.

(** X2: on a line without quote characters [parseLine] returns one field
    more than the line has delimiters; in particular it never returns an
    empty list, and an empty line gives one empty field. *)
Theorem parseLine_field_count (c : ascii) (line : string) :
  countChar DQUOTE line = 0 →
  length (parseLine line (chr c)) = S (countChar c line).
Proof. intros Hq. unfold parseLine. by rewrite parseLineFrom_count. Qed.

Lemma parseLine_field_count_witness :
  countChar DQUOTE "a,,b c," = 0
  ∧ length (parseLine "a,,b c," (chr COMMA)) = 4.
Proof.
  split; [reflexivity|].
  exact (parseLine_field_count COMMA "a,,b c," eq_refl).
Defined.

(** A run of characters that are neither quotes nor delimiters goes to the
    buffer as it is. *)
Lemma parseLineFrom_run (c : ascii) (f rest : string) :
  forallChars (λ x, negb (Ascii.eqb x DQUOTE) && negb (Ascii.eqb x c)) f = true →
  ∀ current fields,
    parseLineFrom (chr c) (f +:+ rest) current false fields
    = parseLineFrom (chr c) rest (current +:+ f) false fields.
Proof.
  induction f as [|x f IH]; intros Hf current fields.
  - by rewrite sapp_nil_r.
  - cbn [forallChars] in Hf.
    apply andb_true_iff in Hf as [Hx Hf].
    apply andb_true_iff in Hx as [Hq%negb_true_iff Hc%negb_true_iff].
    rewrite sapp_cons, parseLineFrom_plain by done. rewrite chr_eqb, Hc.
    rewrite IH by done. by rewrite sapp_assoc.
Qed.

Lemma parseLineFrom_join_plain (c : ascii) (fs : list string) :
  Ascii.eqb c DQUOTE = false →
  Forall (λ f, forallChars (λ x, negb (Ascii.eqb x DQUOTE) && negb (Ascii.eqb x c)) f
               = true) fs →
  ∀ f fields,
    forallChars (λ x, negb (Ascii.eqb x DQUOTE) && negb (Ascii.eqb x c)) f = true →
    parseLineFrom (chr c) (joinWith c (f :: fs)) "" false fields
    = fields ++ trim f :: map trim fs.
Proof.
  intros Hc. induction fs as [|g fs IH]; intros Hfs f fields Hf.
  - cbn [joinWith map]. rewrite <- (sapp_nil_r f) at 1.
    by rewrite parseLineFrom_run.
  - apply Forall_cons in Hfs as [Hg Hfs].
    change (joinWith c (f :: g :: fs)) with (f +:+ String c (joinWith c (g :: fs))).
    rewrite parseLineFrom_run by done.
    rewrite parseLineFrom_plain by done. rewrite chr_eqb, Ascii.eqb_refl.
    rewrite IH by done. cbn [map]. by rewrite <- app_assoc.
Qed.

(** X3: writing fields that hold neither quotes nor the delimiter next to
    each other, separated by the delimiter, and tokenizing the line gives the
    fields back, trimmed. *)
Theorem parseLine_join_plain (c : ascii) (f : string) (fs : list string) :
  Ascii.eqb c DQUOTE = false →
  Forall (λ f, forallChars (λ x, negb (Ascii.eqb x DQUOTE) && negb (Ascii.eqb x c)) f
               = true) (f :: fs) →
  parseLine (joinWith c (f :: fs)) (chr c) = map trim (f :: fs).
Proof.
  intros Hc [Hf Hfs]%Forall_cons. unfold parseLine.
  by rewrite parseLineFrom_join_plain.
Qed.

Lemma parseLine_join_plain_witness :
  Ascii.eqb TAB DQUOTE = false
  ∧ parseLine (joinWith TAB ["Ann Lee"; " 12, Main St "; ""]) (chr TAB)
    = ["Ann Lee"; "12, Main St"; ""].
Proof.
  split; [reflexivity|].
  apply (parseLine_join_plain TAB "Ann Lee" [" 12, Main St "; ""]);
    [reflexivity|]. by repeat constructor.
Defined.

Lemma parseLineFrom_quoted_field (c : ascii) (body rest current : string)
    (fields : list string) :
  isChar (nextOf rest) DQUOTE = false →
  parseLineFrom (chr c) (quoted body +:+ rest) current false fields
  = parseLineFrom (chr c) rest (current +:+ body) false fields.
Proof.
  intros Hrest. unfold quoted. rewrite sapp_cons, sapp_assoc.
  rewrite parseLineFrom_open. unfold chr at 2. rewrite sapp_cons.
  change ("" +:+ rest) with rest. by apply parseLineFrom_quoted.
Qed.

Lemma parseLineFrom_join_quoted (c : ascii) (fs : list string) :
  Ascii.eqb c DQUOTE = false →
  ∀ f fields,
    parseLineFrom (chr c) (joinWith c (map quoted (f :: fs))) "" false fields
    = fields ++ trim f :: map trim fs.
Proof.
  intros Hc. induction fs as [|g fs IH]; intros f fields.
  - cbn [joinWith map]. rewrite <- (sapp_nil_r (quoted f)).
    by rewrite parseLineFrom_quoted_field.
  - change (joinWith c (map quoted (f :: g :: fs)))
      with (quoted f +:+ String c (joinWith c (map quoted (g :: fs)))).
    rewrite parseLineFrom_quoted_field by (cbn; done).
    rewrite parseLineFrom_plain by done. rewrite chr_eqb, Ascii.eqb_refl.
    rewrite IH. cbn [map]. by rewrite <- app_assoc.
Qed.

(** X4: quoting is a faithful encoding up to trimming.  Whatever the fields
    hold (delimiters, quotes, whitespace), writing each one as a quoted
    string with its quotes doubled, joining them with the delimiter and
    tokenizing the line gives the fields back, trimmed. *)
Theorem parseLine_join_quoted (c : ascii) (f : string) (fs : list string) :
  Ascii.eqb c DQUOTE = false →
  parseLine (joinWith c (map quoted (f :: fs))) (chr c) = map trim (f :: fs).
Proof. intros Hc. unfold parseLine. by rewrite parseLineFrom_join_quoted. Qed.

Lemma parseLine_join_quoted_witness :
  Ascii.eqb COMMA DQUOTE = false
  ∧ parseLine (joinWith COMMA (map quoted ["a,b"; chr DQUOTE +:+ "x"; " y "]))
      (chr COMMA)
    = ["a,b"; chr DQUOTE +:+ "x"; "y"].
Proof.
  split; [reflexivity|].
  exact (parseLine_join_quoted COMMA "a,b" [chr DQUOTE +:+ "x"; " y "] eq_refl).
Defined.

(** ** Header names *)

Lemma forallChars_app (p : ascii → bool) (a b : string) :
  forallChars p (a +:+ b) = forallChars p a && forallChars p b.
Proof.
  induction a as [|c a IH]; [done|]. rewrite sapp_cons. cbn [forallChars].
  by rewrite IH, andb_assoc.
Qed.

Lemma forallChars_impl (p q : ascii → bool) (s : string) :
  (∀ c, p c = true → q c = true) →
  forallChars p s = true → forallChars q s = true.
Proof.
  intros Hpq. induction s as [|c s IH]; [done|]. cbn [forallChars].
  intros [Hc Hs]%andb_true_iff. by rewrite (Hpq c Hc), IH.
Qed.

Lemma forallChars_mapChars (p q : ascii → bool) (f : ascii → ascii) (s : string) :
  (∀ c, p c = true → q (f c) = true) →
  forallChars p s = true → forallChars q (mapChars f s) = true.
Proof.
  intros Hpq. induction s as [|c s IH]; [done|]. cbn [forallChars mapChars].
  intros [Hc Hs]%andb_true_iff. by rewrite (Hpq c Hc), IH.
Qed.

Lemma forallChars_filterChars (p : ascii → bool) (s : string) :
  forallChars p (filterChars p s) = true.
Proof.
  induction s as [|c s IH]; [done|]. cbn [filterChars].
  destruct (p c) eqn:Hc; [|done]. cbn [forallChars]. by rewrite Hc, IH.
Qed.

Lemma forallChars_trimStart (p : ascii → bool) (s : string) :
  forallChars p s = true → forallChars p (trimStart s) = true.
Proof.
  induction s as [|c s IH]; [done|]. cbn [trimStart].
  destruct (isWhiteSpace c); [|done]. cbn [forallChars].
  intros [_ Hs]%andb_true_iff. by apply IH.
Qed.

Lemma forallChars_trimEnd (p : ascii → bool) (s : string) :
  forallChars p s = true → forallChars p (trimEnd s) = true.
Proof.
  induction s as [|c s IH]; [done|]. rewrite trimEnd_cons. cbn [forallChars].
  intros [Hc Hs]%andb_true_iff. specialize (IH Hs).
  destruct (trimEnd s) as [|d r].
  - destruct (isWhiteSpace c); [done|]. cbn [chr forallChars]. by rewrite Hc.
  - cbn [forallChars] in *. by rewrite Hc, IH.
Qed.

Lemma forallChars_trim (p : ascii → bool) (s : string) :
  forallChars p s = true → forallChars p (trim s) = true.
Proof. intros Hs. by apply forallChars_trimEnd, forallChars_trimStart. Qed.

Lemma Forall_consFirst (p : ascii → bool) (c : ascii) (l : list string) :
  p c = true →
  Forall (λ w, forallChars p w = true) l →
  Forall (λ w, forallChars p w = true) (consFirst c l).
Proof.
  intros Hc [|w ws Hw Hws]; cbn [consFirst].
  - apply Forall_singleton. cbn [chr forallChars]. by rewrite Hc.
  - apply Forall_cons. split; [|done]. cbn [forallChars]. by rewrite Hc, Hw.
Qed.

Lemma headerChar_word (c : ascii) :
  isHeaderChar c = true → isWordSep c = false → isAlnum c = true.
Proof.
  unfold isHeaderChar, isWordSep, isAlnum.
  destruct (isLowerAZ c), (isUpperAZ c), (isDigit c), (isWhiteSpace c),
    (Ascii.eqb c UNDERSCORE), (Ascii.eqb c "-"); done.
Qed.

Lemma splitWordsFrom_alnum (b : bool) (s : string) :
  forallChars isHeaderChar s = true →
  Forall (λ w, forallChars isAlnum w = true) (splitWordsFrom b s).
Proof.
  revert b. induction s as [|c s IH]; intros b; [by repeat constructor|].
  cbn [forallChars splitWordsFrom]. intros [Hc Hs]%andb_true_iff.
  destruct (isWordSep c) eqn:Hsep.
  - destruct b; [by apply IH|]. apply Forall_cons. split; [done|by apply IH].
  - apply Forall_consFirst; [by apply headerChar_word|by apply IH].
Qed.

Lemma alnum_case (c : ascii) :
  isAlnum c = true →
  isAlnum (upperChar c) = true ∧ isAlnum (lowerChar c) = true.
Proof.
  destruct c as [[] [] [] [] [] [] [] []]; vm_compute; intros H;
    first [ discriminate H | by split ].
Qed.

Lemma alnum_safe (c : ascii) :
  isAlnum c = true →
  isWhiteSpace c = false ∧ Ascii.eqb c GT = false ∧ Ascii.eqb c LT = false.
Proof.
  destruct c as [[] [] [] [] [] [] [] []]; vm_compute; intros H;
    first [ discriminate H | by repeat split ].
Qed.

Lemma capitalize_alnum (w : string) :
  forallChars isAlnum w = true → forallChars isAlnum (capitalize w) = true.
Proof.
  destruct w as [|c w]; [done|]. cbn [forallChars capitalize].
  intros [Hc Hw]%andb_true_iff.
  rewrite (proj1 (alnum_case c Hc)). cbn [andb].
  apply (forallChars_mapChars isAlnum); [|done].
  intros d Hd. apply (alnum_case d Hd).
Qed.

Lemma join_alnum (l : list string) :
  Forall (λ w, forallChars isAlnum w = true) l →
  forallChars isAlnum (join l) = true.
Proof.
  induction 1 as [|w ws Hw Hws IH]; [done|].
  unfold join in *. cbn [foldr]. by rewrite forallChars_app, Hw, IH.
Qed.

(** The capitalized words of a header cell hold letters and digits only. *)
Lemma capitalized_words_alnum (header : string) :
  Forall (λ w, forallChars isAlnum w = true)
    (map capitalize (splitWords (trim (filterChars isHeaderChar header)))).
Proof.
  unfold splitWords.
  apply Forall_fmap, Forall_impl with (P := λ w, forallChars isAlnum w = true).
  - apply splitWordsFrom_alnum, forallChars_trim, forallChars_filterChars.
  - intros w Hw. by apply capitalize_alnum.
Qed.

(** X5: a normalized header holds letters and digits only, whatever the
    header cell held: no whitespace, no angle brackets, no punctuation. *)
Theorem normalizeHeader_alnum (header : string) :
  forallChars isAlnum (normalizeHeader header) = true.
Proof.
  unfold normalizeHeader. cbn zeta.
  apply join_alnum, capitalized_words_alnum.
Qed.

Lemma numberToString_digits (n : nat) :
  forallChars isDigit (numberToString n) = true.
Proof.
  unfold numberToString. generalize (Nat.to_uint n). intros d.
  induction d; cbn [NilEmpty.string_of_uint forallChars];
    rewrite ?IHd; reflexivity.
Qed.

Lemma numberToString_inj (n m : nat) :
  numberToString n = numberToString m → n = m.
Proof.
  unfold numberToString. intros H.
  apply DecimalNat.Unsigned.to_uint_inj.
  assert (Some (Nat.to_uint n) = Some (Nat.to_uint m)) as [=]; [|done].
  by rewrite <- !NilEmpty.usu, H.
Qed.

Lemma digit_alnum (c : ascii) : isDigit c = true → isAlnum c = true.
Proof. unfold isAlnum. intros ->. by rewrite !orb_true_r. Qed.

Lemma generateColumnHeaders_length (count : nat) :
  length (generateColumnHeaders count) = count.
Proof. unfold generateColumnHeaders. by rewrite length_map, length_seq. Qed.

Lemma generateColumnHeaders_NoDup (count : nat) :
  NoDup (generateColumnHeaders count).
Proof.
  unfold generateColumnHeaders. apply NoDup_fmap_2; [|apply NoDup_seq].
  intros i j Hij. apply String.app_inj in Hij.
  apply numberToString_inj in Hij. lia.
Qed.

Lemma generateColumnHeaders_alnum (count : nat) :
  Forall (λ h, forallChars isAlnum h = true) (generateColumnHeaders count).
Proof.
  unfold generateColumnHeaders.
  apply Forall_fmap, Forall_forall. intros i _. cbn.
  rewrite forallChars_app. apply andb_true_iff. split; [reflexivity|].
  apply (forallChars_impl isDigit); [apply digit_alnum|].
  apply numberToString_digits.
Qed.

(** X6: the synthetic headers of [generateColumnHeaders]: as many as asked
    for, the one at (0-based) position [i] is [Column] followed by [i + 1],
    no two are equal, and they hold letters and digits only. *)
Theorem generateColumnHeaders_spec (count : nat) :
  length (generateColumnHeaders count) = count
  ∧ (∀ i, i < count →
       generateColumnHeaders count !! i
       = Some ("Column" +:+ numberToString (i + 1)))
  ∧ NoDup (generateColumnHeaders count)
  ∧ Forall (λ h, forallChars isAlnum h = true) (generateColumnHeaders count).
Proof.
  split; [apply generateColumnHeaders_length|].
  split; [|split; [apply generateColumnHeaders_NoDup
                  |apply generateColumnHeaders_alnum]].
  intros i Hi. unfold generateColumnHeaders.
  rewrite list_lookup_fmap, lookup_seq_lt by done. done.
Qed.

Lemma generateColumnHeaders_spec_witness :
  1 < 3 ∧ generateColumnHeaders 3 !! 1 = Some "Column2".
Proof.
  split; [lia|].
  exact (proj1 (proj2 (generateColumnHeaders_spec 3)) 1 ltac:(lia)).
Defined.

Lemma uniqueHeadersFrom_length (counts : gmap string nat) (hs : list string) :
  length (uniqueHeadersFrom counts hs) = length hs.
Proof.
  revert counts. induction hs as [|h hs IH]; intros counts; [done|].
  cbn [uniqueHeadersFrom length]. by rewrite IH.
Qed.

Lemma uniqueHeadersFrom_NoDup (counts : gmap string nat) (hs : list string) :
  NoDup hs → (∀ h, h ∈ hs → counts !! h = None) →
  uniqueHeadersFrom counts hs = hs.
Proof.
  revert counts. induction hs as [|h hs IH]; intros counts Hnd Hfresh; [done|].
  apply NoDup_cons in Hnd as [Hh Hnd]. cbn [uniqueHeadersFrom].
  rewrite (Hfresh h) by (by left). cbn. f_equal.
  apply IH; [done|]. intros g Hg. rewrite lookup_insert_ne.
  - apply Hfresh. by right.
  - intros ->. done.
Qed.

Lemma uniqueHeadersFrom_alnum (counts : gmap string nat) (hs : list string) :
  Forall (λ h, forallChars isAlnum h = true) hs →
  Forall (λ h, forallChars isAlnum h = true) (uniqueHeadersFrom counts hs).
Proof.
  intros H. revert counts. induction H as [|h hs Hh Hhs IH]; intros counts; [done|].
  cbn [uniqueHeadersFrom]. apply Forall_cons. split; [|apply IH].
  destruct (0 <? _); [|done].
  rewrite forallChars_app, Hh. cbn [andb].
  apply (forallChars_impl isDigit); [apply digit_alnum|].
  apply numberToString_digits.
Qed.

(** X7: the renaming pass keeps the number of headers, and leaves a list of
    pairwise distinct headers exactly as it is. *)
Theorem uniqueHeaders_id (hs : list string) :
  length (uniqueHeaders hs) = length hs
  ∧ (NoDup hs → uniqueHeaders hs = hs).
Proof.
  split; [apply uniqueHeadersFrom_length|]. intros Hnd.
  apply uniqueHeadersFrom_NoDup; [done|]. intros h _. apply lookup_empty.
Qed.

Lemma uniqueHeaders_id_witness :
  NoDup ["Name"; "City"] ∧ uniqueHeaders ["Name"; "City"] = ["Name"; "City"].
Proof.
  assert (NoDup ["Name"; "City"]) as Hnd.
  { apply NoDup_cons. split; [|apply NoDup_singleton].
    intros H. apply list_elem_of_singleton in H. discriminate H. }
  split; [exact Hnd|]. exact (proj2 (uniqueHeaders_id ["Name"; "City"]) Hnd).
Defined.

(** ** The dataset *)

Lemma splitLines_two (c1 c2 : ascii) (s : string) :
  splitLines (String c1 (String c2 s))
  = if Ascii.eqb c1 LF then "" :: splitLines (String c2 s)
    else if Ascii.eqb c1 CR && Ascii.eqb c2 LF then "" :: splitLines s
    else consFirst c1 (splitLines (String c2 s)).
Proof. done. Qed.

Lemma splitLines_one (c : ascii) :
  splitLines (String c "") = if Ascii.eqb c LF then [""; ""] else [chr c].
Proof. cbn [splitLines]. by destruct (Ascii.eqb c LF). Qed.

(** The lines are made of characters of the text. *)
Lemma splitLines_chars (p : ascii → bool) (s : string) :
  forallChars p s = true →
  Forall (λ l, forallChars p l = true) (splitLines s).
Proof.
  induction s as [|c|c1 c2 s IHs IHc] using string_ind2.
  - by repeat constructor.
  - rewrite splitLines_one. cbn [forallChars]. rewrite andb_true_r. intros Hc.
    destruct (Ascii.eqb c LF); repeat constructor. cbn. by rewrite Hc.
  - rewrite splitLines_two. intros Hs.
    change (p c1 && forallChars p (String c2 s) = true) in Hs.
    apply andb_true_iff in Hs as [H1 Hs]. pose proof Hs as Hs2.
    cbn [forallChars] in Hs2. apply andb_true_iff in Hs2 as [H2 Hs2].
    destruct (Ascii.eqb c1 LF).
    + apply Forall_cons. split; [done|by apply IHc].
    + destruct (_ && _).
      * apply Forall_cons. split; [done|by apply IHs].
      * apply Forall_consFirst; [done|by apply IHc].
Qed.

Lemma trimStart_white (s : string) :
  forallChars isWhiteSpace s = true → trimStart s = "".
Proof.
  induction s as [|c s IH]; [done|]. cbn [forallChars trimStart].
  intros [-> Hs]%andb_true_iff. by apply IH.
Qed.

Lemma filter_all_blank (ls : list string) :
  Forall (λ l, trim l = "") ls → filter (λ l, trim l ≠ "") ls = [].
Proof.
  induction 1 as [|l ls Hl Hls IH]; [done|].
  rewrite filter_cons. by destruct (decide (trim l ≠ "")).
Qed.

(** X8: a text made of whitespace and line breaks only gives the empty
    dataset: no headers, no records, no header row. *)
Theorem parseCSV_blank (text : string) :
  forallChars isWhiteSpace text = true →
  parseCSV text = mkParsedData [] [] false.
Proof.
  intros Hws. unfold parseCSV. rewrite filter_all_blank; [done|].
  eapply Forall_impl; [by apply splitLines_chars|].
  intros l Hl. unfold trim. by rewrite trimStart_white.
Qed.

Lemma parseCSV_blank_witness :
  forallChars isWhiteSpace (" " +:+ lf +:+ chr TAB +:+ chr CR +:+ lf) = true
  ∧ parseCSV (" " +:+ lf +:+ chr TAB +:+ chr CR +:+ lf) = mkParsedData [] [] false.
Proof.
  split; [reflexivity|]. by apply parseCSV_blank.
Defined.

Lemma parseCSV_cons (text line0 : string) (ls : list string) :
  nonBlankLines text = line0 :: ls →
  parseCSV text
  = let delimiter := detectDelimiter text in
    let firstRow := parseLine line0 delimiter in
    let hs := uniqueHeaders
                (if detectHeaders firstRow then map normalizeHeader firstRow
                 else generateColumnHeaders (length firstRow)) in
    mkParsedData hs
      (map (λ line, buildRow hs (parseLine line delimiter))
           (drop (if detectHeaders firstRow then 1 else 0) (line0 :: ls)))
      (detectHeaders firstRow).
Proof. unfold nonBlankLines, parseCSV. by intros ->. Qed.

(** X9: the shape of the dataset.  There are as many headers as the first
    non-blank line has fields; every further non-blank line gives exactly one
    record, and so does the first one unless it is taken as the header
    row. *)
Theorem parseCSV_counts (text : string) :
  length (headers (parseCSV text))
  = match nonBlankLines text with
    | [] => 0
    | line0 :: _ => length (parseLine line0 (detectDelimiter text))
    end
  ∧ length (rows (parseCSV text))
    = length (nonBlankLines text)
      - (if hasHeaders (parseCSV text) then 1 else 0).
Proof.
  destruct (nonBlankLines text) as [|line0 ls] eqn:Hlines.
  - unfold parseCSV. unfold nonBlankLines in Hlines. by rewrite Hlines.
  - rewrite (parseCSV_cons text line0 ls Hlines). cbn zeta.
    cbn [headers rows hasHeaders]. split.
    + unfold uniqueHeaders. rewrite uniqueHeadersFrom_length.
      destruct (detectHeaders _).
      * by rewrite length_map.
      * apply generateColumnHeaders_length.
    + by rewrite length_map, length_drop.
Qed.

(** The headers chosen for a first line, before and after the renaming. *)
Lemma chosen_headers_alnum (firstRow : list string) :
  Forall (λ h, forallChars isAlnum h = true)
    (uniqueHeaders
       (if detectHeaders firstRow then map normalizeHeader firstRow
        else generateColumnHeaders (length firstRow))).
Proof.
  apply uniqueHeadersFrom_alnum. destruct (detectHeaders _).
  - apply Forall_fmap, Forall_forall. intros h _.
    unfold normalizeHeader. cbn zeta.
    apply join_alnum, capitalized_words_alnum.
  - apply generateColumnHeaders_alnum.
Qed.

(** X10: every header of a parsed dataset, taken from a header row or
    generated, renamed or not, holds letters and digits only. *)
Theorem parseCSV_headers_alnum (text : string) :
  Forall (λ h, forallChars isAlnum h = true) (headers (parseCSV text)).
Proof.
  destruct (nonBlankLines text) as [|line0 ls] eqn:Hlines.
  - unfold parseCSV. unfold nonBlankLines in Hlines. by rewrite Hlines.
  - rewrite (parseCSV_cons text line0 ls Hlines). cbn zeta. cbn [headers].
    apply chosen_headers_alnum.
Qed.

(** X11: without a header row the dataset is sound.  When the first line is
    not taken as a header row, the headers are [Column1 .. ColumnN], pairwise
    distinct, every non-blank line (the first one included) is a record, and
    every record has exactly [N] fields, the one under the [j]-th header
    being the [j]-th field of its line, or the empty string when the line is
    too short. *)
Theorem parseCSV_no_header_row (text : string) :
  hasHeaders (parseCSV text) = false →
  headers (parseCSV text)
  = generateColumnHeaders (length (headers (parseCSV text)))
  ∧ NoDup (headers (parseCSV text))
  ∧ rows (parseCSV text)
    = map (λ line, buildRow (headers (parseCSV text))
                     (parseLine line (detectDelimiter text)))
          (nonBlankLines text)
  ∧ ∀ r, r ∈ rows (parseCSV text) →
      size r = length (headers (parseCSV text)).
Proof.
  intros Hno.
  assert (NoDup (headers (parseCSV text))
          ∧ headers (parseCSV text)
            = generateColumnHeaders (length (headers (parseCSV text)))
          ∧ rows (parseCSV text)
            = map (λ line, buildRow (headers (parseCSV text))
                             (parseLine line (detectDelimiter text)))
                  (nonBlankLines text)) as (Hnd & Hgen & Hrows).
  { destruct (nonBlankLines text) as [|line0 ls] eqn:Hlines.
    - unfold parseCSV. unfold nonBlankLines in Hlines. rewrite Hlines.
      cbn. split; [apply NoDup_nil_2|done].
    - revert Hno. rewrite (parseCSV_cons text line0 ls Hlines). cbn zeta.
      cbn [headers rows hasHeaders]. intros ->.
      set (n := length (parseLine line0 (detectDelimiter text))).
      pose proof (generateColumnHeaders_length n) as Hlen.
      pose proof (generateColumnHeaders_NoDup n) as Hnd.
      unfold uniqueHeaders. rewrite uniqueHeadersFrom_NoDup; [by rewrite Hlen|done|].
      intros h _. apply lookup_empty. }
  split; [done|]. split; [done|]. split; [done|].
  intros r Hr. by apply parseCSV_rectangular_NoDup.
Qed.

Lemma parseCSV_no_header_row_witness :
  hasHeaders (parseCSV ("A1,B1" +:+ lf +:+ "A2,B2")) = false
  ∧ headers (parseCSV ("A1,B1" +:+ lf +:+ "A2,B2")) = ["Column1"; "Column2"]
  ∧ length (rows (parseCSV ("A1,B1" +:+ lf +:+ "A2,B2"))) = 2.
Proof.
  pose proof (parseCSV_no_header_row ("A1,B1" +:+ lf +:+ "A2,B2") eq_refl)
    as (Hh & _ & Hrows & _).
  split; [reflexivity|]. split.
  - rewrite Hh. reflexivity.
  - rewrite Hrows. reflexivity.
Defined.

(** X12: what a record holds.  Every record of a dataset has a value for
    every header; and when the headers are pairwise distinct, the record of
    a line has exactly one field per header, the one under the [j]-th header
    being the [j]-th field of the line, or the empty string if the line has
    fewer fields (fields beyond the last header are dropped). *)
Theorem parseCSV_records (text : string) :
  (∀ r h, r ∈ rows (parseCSV text) → h ∈ headers (parseCSV text) →
     is_Some (r !! h))
  ∧ (NoDup (headers (parseCSV text)) →
     ∀ r, r ∈ rows (parseCSV text) →
       size r = length (headers (parseCSV text))
       ∧ ∃ line, line ∈ nonBlankLines text
           ∧ ∀ j h, headers (parseCSV text) !! j = Some h →
               r !! h
               = Some (default ""
                         (parseLine line (detectDelimiter text) !! j))).
Proof.
  split; [intros r h; apply parseCSV_covers|]. intros Hnd r Hr.
  split; [by apply parseCSV_rectangular_NoDup|].
  destruct (detectDelimiter_first_raw_line "" "" text eq_refl) as (_ & _ & Hrows).
  rewrite Hrows in Hr. apply list_elem_of_fmap in Hr as (line & -> & Hline).
  exists line. split.
  - unfold nonBlankLines. eapply elem_of_sublist; [exact Hline|].
    apply sublist_drop.
  - intros j h Hj. by apply buildRow_rectangular.
Qed.

Lemma parseCSV_records_witness :
  NoDup (headers (parseCSV addressInput))
  ∧ ∀ r, r ∈ rows (parseCSV addressInput) →
      size r = length (headers (parseCSV addressInput)).
Proof.
  assert (NoDup (headers (parseCSV addressInput))) as Hnd.
  { change (headers (parseCSV addressInput)) with ["Name"; "City"].
    apply NoDup_cons. split; [|apply NoDup_singleton].
    intros H. apply list_elem_of_singleton in H. discriminate H. }
  split; [exact Hnd|]. intros r Hr.
  exact (proj1 (proj2 (parseCSV_records addressInput) Hnd r Hr)).
Defined.

(** ** Placeholder substitution *)

Lemma matchPlaceholder_other (c : ascii) (s : string) :
  Ascii.eqb c LT = false → matchPlaceholder (String c s) = None.
Proof. intros Hc. unfold matchPlaceholder. destruct s; [done|]. by rewrite Hc. Qed.

Lemma spanKey_no_GT (s : string) : countChar GT s = 0 → spanKey s = (s, "").
Proof.
  induction s as [|c s IH]; [done|]. cbn [countChar spanKey].
  destruct (Ascii.eqb c GT); [done|]. intros Hs. by rewrite IH.
Qed.

Lemma matchPlaceholder_no_GT (s : string) :
  countChar GT s = 0 → matchPlaceholder s = None.
Proof.
  intros Hs. unfold matchPlaceholder. destruct s as [|c1 [|c2 s1]]; [done..|].
  destruct (_ && _); [|done].
  cbn [countChar] in Hs. rewrite spanKey_no_GT by lia. by destruct (isEmpty s1).
Qed.

Lemma noPlaceholder_no_GT (s : string) : countChar GT s = 0 → noPlaceholder s.
Proof.
  induction s as [|c s IH]; [done|]. intros Hs. split.
  - by apply matchPlaceholder_no_GT.
  - apply IH. cbn [countChar] in Hs. lia.
Qed.

Lemma applyTemplate_prefix (data : gmap string string) (a t : string) :
  countChar LT a = 0 →
  applyTemplate (a +:+ t) data = a +:+ applyTemplate t data.
Proof.
  induction a as [|c a IH]; [done|]. cbn [countChar].
  destruct (Ascii.eqb c LT) eqn:Hc; [done|]. intros Ha.
  rewrite !sapp_cons, applyTemplate_no_match by (by apply matchPlaceholder_other).
  by rewrite IH.
Qed.

(** X13: text without an opening or without a closing angle bracket is never
    altered, whatever the record; and text up to the first [<] is copied to
    the output as it is. *)
Theorem applyTemplate_plain (data : gmap string string) (a t : string) :
  (countChar LT a = 0 → applyTemplate (a +:+ t) data = a +:+ applyTemplate t data)
  ∧ (countChar LT a = 0 → applyTemplate a data = a)
  ∧ (countChar GT a = 0 → applyTemplate a data = a).
Proof.
  split; [apply applyTemplate_prefix|]. split.
  - intros Ha. rewrite <- (sapp_nil_r a) at 1.
    rewrite applyTemplate_prefix by done. by rewrite sapp_nil_r.
  - intros Ha. by apply applyTemplate_no_placeholder, noPlaceholder_no_GT.
Qed.

Lemma applyTemplate_plain_witness :
  countChar LT "Dear " = 0 ∧ countChar GT "a << b" = 0
  ∧ applyTemplate ("Dear " +:+ "<<Name>>") (<["Name" := "Ann"]> ∅)
    = "Dear " +:+ applyTemplate "<<Name>>" (<["Name" := "Ann"]> ∅)
  ∧ applyTemplate "a << b" (<["Name" := "Ann"]> ∅) = "a << b".
Proof.
  split; [reflexivity|]. split; [reflexivity|].
  pose proof (applyTemplate_plain (<["Name" := "Ann"]> ∅) "Dear " "<<Name>>")
    as (H1 & _ & _).
  pose proof (applyTemplate_plain (<["Name" := "Ann"]> ∅) "a << b" "")
    as (_ & _ & H3).
  split; [exact (H1 eq_refl)|exact (H3 eq_refl)].
Defined.

Lemma spanKey_key (key r : string) :
  forallChars (λ c, negb (Ascii.eqb c GT)) key = true →
  spanKey (key +:+ String GT r) = (key, String GT r).
Proof.
  induction key as [|c key IH].
  - intros _. change ("" +:+ String GT r) with (String GT r).
    cbn [spanKey]. by rewrite Ascii.eqb_refl.
  - cbn [forallChars]. intros [Hc%negb_true_iff Hk]%andb_true_iff.
    rewrite sapp_cons. cbn [spanKey]. by rewrite Hc, IH.
Qed.

Lemma matchPlaceholder_token (key rest : string) :
  key ≠ "" → forallChars (λ c, negb (Ascii.eqb c GT)) key = true →
  matchPlaceholder ("<<" +:+ key +:+ ">>" +:+ rest) = Some (key, rest).
Proof.
  intros Hne Hkey.
  change ("<<" +:+ key +:+ ">>" +:+ rest)
    with (String LT (String LT (key +:+ String GT (String GT rest)))).
  unfold matchPlaceholder. rewrite !Ascii.eqb_refl. cbn [andb].
  rewrite spanKey_key by done. destruct key; [done|].
  cbn [isEmpty]. by rewrite !Ascii.eqb_refl.
Qed.

(** X14: a token [<<key>>] whose key, trimmed, is a field of the record is
    replaced by the value of that field, and the scan goes on behind the
    token: the value is put out as it is, even if it holds placeholder
    tokens itself. *)
Theorem applyTemplate_known (data : gmap string string) (key v rest : string) :
  key ≠ "" → forallChars (λ c, negb (Ascii.eqb c GT)) key = true →
  data !! trim key = Some v →
  applyTemplate ("<<" +:+ key +:+ ">>" +:+ rest) data
  = v +:+ applyTemplate rest data.
Proof.
  intros Hne Hkey Hv.
  rewrite (applyTemplate_match data _ key rest) by (by apply matchPlaceholder_token).
  by rewrite (proj1 (replacer_cases data key v) Hv).
Qed.

Lemma applyTemplate_known_witness :
  " A " ≠ "" ∧ (<["A" := "<<B>>"]> (<["B" := "x"]> ∅) : gmap string string) !! trim " A "
               = Some "<<B>>"
  ∧ applyTemplate ("<<" +:+ " A " +:+ ">>" +:+ "!")
      (<["A" := "<<B>>"]> (<["B" := "x"]> ∅))
    = "<<B>>" +:+ applyTemplate "!" (<["A" := "<<B>>"]> (<["B" := "x"]> ∅)).
Proof.
  split; [discriminate|]. split; [reflexivity|].
  apply (applyTemplate_known _ " A " "<<B>>" "!"); [discriminate|reflexivity..].
Defined.

(** X15: a token whose key, trimmed, is neither a field of the record nor a
    property name of [Object.prototype] is left in the output as it stands,
    and the scan goes on behind it. *)
Theorem applyTemplate_unknown (data : gmap string string) (key rest : string) :
  key ≠ "" → forallChars (λ c, negb (Ascii.eqb c GT)) key = true →
  data !! trim key = None → objectPrototype (trim key) = None →
  applyTemplate ("<<" +:+ key +:+ ">>" +:+ rest) data
  = "<<" +:+ key +:+ ">>" +:+ applyTemplate rest data.
Proof.
  intros Hne Hkey Hnone Hproto.
  rewrite (applyTemplate_match data _ key rest) by (by apply matchPlaceholder_token).
  rewrite (proj2 (replacer_cases data key "") Hnone Hproto).
  by rewrite !sapp_assoc.
Qed.

Lemma applyTemplate_unknown_witness :
  "Zip" ≠ "" ∧ (∅ : gmap string string) !! trim "Zip" = None
  ∧ objectPrototype (trim "Zip") = None
  ∧ applyTemplate ("<<" +:+ "Zip" +:+ ">>" +:+ ".") ∅
    = "<<" +:+ "Zip" +:+ ">>" +:+ applyTemplate "." ∅.
Proof.
  split; [discriminate|]. split; [reflexivity|]. split; [reflexivity|].
  apply (applyTemplate_unknown ∅ "Zip" "."); [discriminate|reflexivity..].
Defined.

Lemma alnum_trim (h : string) : forallChars isAlnum h = true → trim h = h.
Proof.
  intros Hh. unfold trim.
  assert (forallChars (λ c, negb (isWhiteSpace c)) h = true) as Hws.
  { apply (forallChars_impl isAlnum); [|done].
    intros c Hc. by rewrite (proj1 (alnum_safe c Hc)). }
  clear Hh. rewrite startsClean_trimStart.
  2:{ destruct h as [|c h]; [done|]. cbn [forallChars] in Hws.
      apply andb_true_iff in Hws as [Hc%negb_true_iff _]. done. }
  induction h as [|c h IH]; [done|]. cbn [forallChars] in Hws.
  apply andb_true_iff in Hws as [Hc%negb_true_iff Hh].
  rewrite trimEnd_cons, IH, Hc by done. by destruct h.
Qed.

(** X16: the placeholders offered for a parsed dataset resolve.  For every
    record of the dataset and every header that is not the empty string,
    the placeholder [getPlaceholders] builds for that header is replaced by
    the record's field under that header, and by nothing else. *)
Theorem parseCSV_placeholders_resolve (text h : string)
    (r : gmap string string) :
  r ∈ rows (parseCSV text) → h ∈ headers (parseCSV text) → h ≠ "" →
  "<<" +:+ h +:+ ">>" ∈ getPlaceholders (headers (parseCSV text))
  ∧ ∃ v, r !! h = Some v ∧ applyTemplate ("<<" +:+ h +:+ ">>") r = v.
Proof.
  intros Hr Hh Hne. split.
  { unfold getPlaceholders. apply list_elem_of_fmap. by exists h. }
  destruct (parseCSV_covers text r h Hr Hh) as [v Hv]. exists v. split; [done|].
  assert (Hal : forallChars isAlnum h = true).
  { revert Hh. destruct (nonBlankLines text) as [|line0 ls] eqn:Hlines.
    - unfold parseCSV. unfold nonBlankLines in Hlines. rewrite Hlines.
      cbn [headers]. by intros ?%elem_of_nil.
    - rewrite (parseCSV_cons text line0 ls Hlines). cbn zeta. cbn [headers].
      intros Hh. pose proof (chosen_headers_alnum
                               (parseLine line0 (detectDelimiter text))) as Hall.
      rewrite Forall_forall in Hall. by apply Hall. }
  rewrite <- (sapp_nil_r (">>")).
  rewrite (applyTemplate_match r _ h "").
  - rewrite (proj1 (replacer_cases r h v)) by (by rewrite alnum_trim).
    apply sapp_nil_r.
  - apply matchPlaceholder_token; [done|].
    apply (forallChars_impl isAlnum); [|done].
    intros c Hc. by rewrite (proj1 (proj2 (alnum_safe c Hc))).
Qed.

Lemma parseCSV_placeholders_resolve_witness :
  "City" ∈ headers (parseCSV addressInput) ∧ "City" ≠ ""
  ∧ ∀ r, r ∈ rows (parseCSV addressInput) →
      ∃ v, r !! "City" = Some v ∧ applyTemplate ("<<" +:+ "City" +:+ ">>") r = v.
Proof.
  assert ("City" ∈ headers (parseCSV addressInput)) as Hh.
  { change (headers (parseCSV addressInput)) with ["Name"; "City"].
    right. left. }
  split; [exact Hh|]. split; [discriminate|]. intros r Hr.
  exact (proj2 (parseCSV_placeholders_resolve addressInput "City" r Hr Hh
                  ltac:(discriminate))).
Defined.

(** ** Header detection *)

(** The header test in terms of counts.  A first row is taken as a
    header row exactly when two or more of its fields are known header
    names (lower-cased and trimmed), or when one is and the row has at most
    two fields; a row without any known name never is. *)
Theorem detectHeaders_rule (row : list string) :
  detectHeaders row = true
  ↔ 2 ≤ knownCount row ∨ (knownCount row = 1 ∧ length row ≤ 2).
Proof.
  unfold detectHeaders, knownCount. rewrite length_map.
  set (k := length (filter _ _)).
  rewrite orb_true_iff, andb_true_iff, Nat.leb_le, Nat.ltb_lt, Nat.leb_le.
  lia.
Qed.

End CsvExtras.

(** ** The inline-style segmenter *)

Module MarkdownExtras.
Import JS Markdown Spec Aux StringProps MarkdownProps MarkdownClaims CsvExtras.

Lemma flush_Forall (P : TextSegment → Prop) (buffer : string) (b i u : bool)
    (segments : list TextSegment) :
  (buffer ≠ "" → P (mkSegment buffer b i u false)) →
  Forall P segments → Forall P (flush buffer b i u segments).
Proof.
  intros Hbuf Hsegs. unfold flush. destruct buffer as [|c s]; [done|].
  cbn [isEmpty]. apply Forall_app. split; [done|]. by apply Forall_singleton, Hbuf.
Qed.

(** Whatever holds for every run made of characters of the line holds for
    the runs of the line. *)
Lemma scanLine_Forall (P : TextSegment → Prop) (p : ascii → bool) (line : string) :
  (∀ buffer b i u,
     forallChars p buffer = true → buffer ≠ "" →
     P (mkSegment buffer b i u false)) →
  forallChars p line = true →
  ∀ prev b i u buffer segments,
    forallChars p buffer = true → Forall P segments →
    Forall P (scanLine line prev b i u buffer segments).
Proof.
  intros HP.
  assert (∀ buffer b i u segments,
            forallChars p buffer = true → Forall P segments →
            Forall P (flush buffer b i u segments)) as Hflush.
  { intros. apply flush_Forall; [|done]. by apply HP. }
  assert (∀ buffer c, forallChars p buffer = true → p c = true →
            forallChars p (buffer +:+ chr c) = true) as Hsnoc.
  { intros buffer c Hb Hc. rewrite forallChars_app, Hb. cbn. by rewrite Hc. }
  induction line as [|c|c1 c2 s IHs IHc] using string_ind2;
    intros Hline prev b i u buffer segments Hbuf Hsegs.
  - by apply Hflush.
  - rewrite scanLine_one. cbn [forallChars] in Hline.
    apply andb_true_iff in Hline as [Hc _].
    destruct (_ && _); auto.
  - rewrite scanLine_two.
    change (p c1 && forallChars p (String c2 s) = true) in Hline.
    apply andb_true_iff in Hline as [H1 Hline]. pose proof Hline as Hline2.
    cbn [forallChars] in Hline2. apply andb_true_iff in Hline2 as [H2 Hs].
    repeat match goal with
           | |- context [if ?c then _ else _] => destruct c
           end; auto.
Qed.

Lemma splitOnLF_two (c : ascii) (s : string) :
  splitOnLF (String c s)
  = if Ascii.eqb c LF then "" :: splitOnLF s else consFirst c (splitOnLF s).
Proof. done. Qed.

Lemma splitOnLF_no_LF (s : string) :
  Forall (λ l, forallChars (λ c, negb (Ascii.eqb c LF)) l = true) (splitOnLF s).
Proof.
  induction s as [|c s IH]; [by repeat constructor|]. rewrite splitOnLF_two.
  destruct (Ascii.eqb c LF) eqn:Hc.
  - by apply Forall_cons.
  - apply Forall_consFirst; [by rewrite Hc|done].
Qed.

Lemma splitOnLF_length (s : string) :
  length (splitOnLF s) = S (countChar LF s).
Proof.
  induction s as [|c s IH]; [done|]. rewrite splitOnLF_two. cbn [countChar].
  destruct (Ascii.eqb c LF).
  - cbn [length]. by rewrite IH.
  - destruct (splitOnLF s); cbn [consFirst length] in *; lia.
Qed.

Lemma no_LF_count (s : string) :
  forallChars (λ c, negb (Ascii.eqb c LF)) s = true → countChar LF s = 0.
Proof.
  induction s as [|c s IH]; [done|]. cbn [forallChars countChar].
  intros [Hc%negb_true_iff Hs]%andb_true_iff. by rewrite Hc, IH.
Qed.

(** The output, line by line. *)
Lemma parse_lines (text : string) :
  ∃ l ls,
    splitOnLF text = l :: ls
    ∧ parseMarkdownToSegments text
      = scanFresh l ++ flat_map (λ l, lineBreak :: scanFresh l) ls.
Proof.
  destruct (splitOnLF_cons text) as (l & ls & Hl). exists l, ls. split; [done|].
  unfold parseMarkdownToSegments. rewrite Hl. apply parseLines_cons.
Qed.

(** X17: the segmenter emits proper runs only: each run is either the
    line-break run (no text, no style), or a run with non-empty text that
    holds no line feed.  No empty text run is ever emitted. *)
Theorem parseMarkdownToSegments_proper (text : string) :
  Forall properRun (parseMarkdownToSegments text).
Proof.
  destruct (parse_lines text) as (l & ls & Hl & ->).
  pose proof (splitOnLF_no_LF text) as Hlines. rewrite Hl in Hlines.
  assert (∀ line, forallChars (λ c, negb (Ascii.eqb c LF)) line = true →
            Forall properRun (scanFresh line)) as Hscan.
  { intros line Hline. unfold scanFresh.
    apply (scanLine_Forall properRun (λ c, negb (Ascii.eqb c LF))); try done.
    intros buffer b i u Hb Hne. right. split; [done|]. split; [done|].
    by apply no_LF_count. }
  apply Forall_cons in Hlines as [Hl0 Hls].
  apply Forall_app. split; [by apply Hscan|]. clear Hl.
  induction Hls as [|x xs Hx Hxs IH]; [done|]. cbn [flat_map].
  apply Forall_cons. split; [by left|]. apply Forall_app. split; [by apply Hscan|done].
Qed.

Lemma scanFresh_no_break (line : string) :
  filter (λ run, newline run = true) (scanFresh line) = [].
Proof.
  assert (Forall (λ run, newline run = false) (scanFresh line)) as H.
  { unfold scanFresh.
    apply (scanLine_Forall _ (λ _, true)); try done.
    by induction line as [|c s IH]. }
  induction H as [|x xs Hx Hxs IH]; [done|].
  rewrite filter_cons. destruct (decide (newline x = true)) as [Hn|_]; [|done].
  by rewrite Hx in Hn.
Qed.

(** X18: the output holds exactly one line-break run for each line feed of
    the text. *)
Theorem parseMarkdownToSegments_breaks (text : string) :
  length (filter (λ run, newline run = true) (parseMarkdownToSegments text))
  = countChar LF text.
Proof.
  destruct (parse_lines text) as (l & ls & Hl & ->).
  pose proof (splitOnLF_length text) as Hlen. rewrite Hl in Hlen.
  cbn [length] in Hlen. injection Hlen as <-. clear Hl.
  rewrite filter_app, scanFresh_no_break. cbn [app].
  induction ls as [|x xs IH]; [done|]. cbn [flat_map].
  change ((lineBreak :: scanFresh x) ++ ?r) with (lineBreak :: (scanFresh x ++ r)).
  rewrite filter_cons. destruct (decide (newline lineBreak = true)) as [_|Hn]; [|done].
  rewrite filter_app, scanFresh_no_break. cbn [app length]. by rewrite IH.
Qed.

(** *** Literal text and balanced markers *)

Lemma literal_char (c : ascii) :
  isLiteral c = true →
  Ascii.eqb c STAR = false ∧ Ascii.eqb c UNDERSCORE = false
  ∧ Ascii.eqb c TILDE = false ∧ Ascii.eqb c BACKSLASH = false
  ∧ Ascii.eqb c LF = false.
Proof.
  unfold isLiteral. rewrite !andb_true_iff, !negb_true_iff. tauto.
Qed.

Lemma literal_no_LF (s : string) : literalText s = true → countChar LF s = 0.
Proof.
  intros Hs. apply no_LF_count. apply (forallChars_impl isLiteral); [|done].
  intros c Hc. apply literal_char in Hc as (_ & _ & _ & _ & ->). done.
Qed.

(** A character that is no marker is copied to the buffer. *)
Lemma scanLine_copy (c : ascii) (r : string) (prev : option ascii)
    (b i u : bool) (buffer : string) (segments : list TextSegment) :
  Ascii.eqb c STAR = false → Ascii.eqb c UNDERSCORE = false →
  Ascii.eqb c TILDE = false →
  scanLine (String c r) prev b i u buffer segments
  = scanLine r (Some c) b i u (buffer +:+ chr c) segments.
Proof.
  intros H1 H2 H3. destruct r as [|c2 r].
  - rewrite scanLine_one, H1, H2. done.
  - rewrite scanLine_two, H1, H2, H3. done.
Qed.

Lemma scanLine_literal (s : string) :
  literalText s = true →
  ∀ rest prev b i u buffer segments,
    isChar prev BACKSLASH = false →
    ∃ prev',
      isChar prev' BACKSLASH = false
      ∧ scanLine (s +:+ rest) prev b i u buffer segments
        = scanLine rest prev' b i u (buffer +:+ s) segments.
Proof.
  induction s as [|c s IH]; intros Hs rest prev b i u buffer segments Hprev.
  - exists prev. by rewrite sapp_nil_r.
  - unfold literalText in *. cbn [forallChars] in Hs.
    apply andb_true_iff in Hs as [Hc Hs].
    apply literal_char in Hc as (H1 & H2 & H3 & H4 & _).
    rewrite sapp_cons, scanLine_copy by done.
    destruct (IH Hs rest (Some c) b i u (buffer +:+ chr c) segments H4)
      as (prev' & Hprev' & ->).
    exists prev'. split; [done|]. by rewrite sapp_assoc.
Qed.






Lemma scanFresh_literal (s : string) :
  literalText s = true → scanFresh s = flush s false false false [].
Proof.
  intros Hs. unfold scanFresh.
  destruct (scanLine_literal s Hs "" None false false false "" [] eq_refl)
    as (prev' & _ & Heq).
  rewrite sapp_nil_r in Heq. by rewrite Heq.
Qed.

(** X19: text without markers, backslashes and line feeds is one run without
    any style, holding the text as it is. *)
Theorem parse_literal_text (s : string) :
  literalText s = true → s ≠ "" →
  parseMarkdownToSegments s = [mkSegment s false false false false].
Proof.
  intros Hs Hne. rewrite parse_single_line by (by apply literal_no_LF).
  rewrite scanFresh_literal by done. unfold flush. by destruct s.
Qed.

Lemma parse_literal_text_witness :
  literalText "12 Main St." = true ∧ "12 Main St." ≠ ""
  ∧ parseMarkdownToSegments "12 Main St."
    = [mkSegment "12 Main St." false false false false].
Proof.
  split; [reflexivity|]. split; [discriminate|].
  apply parse_literal_text; [reflexivity|discriminate].
Defined.









End MarkdownExtras.

(** ** Wrapping and pagination *)

Module PdfExtras.
Import JS Markdown Pdf PdfDraw Spec Aux StringProps PdfProps.

Section Wrap.
Variable widthOfString : string → string → Z.
Variable maxWidth : Z.

Local Abbreviation wordStep := (wordStep widthOfString maxWidth).
Local Abbreviation segmentStep := (segmentStep widthOfString maxWidth).
Local Abbreviation splitIntoLines := (splitIntoLines widthOfString maxWidth).

Lemma keptFragments_closeLine (st : WrapState) :
  keptFragments (closeLine st) = keptFragments st.
Proof.
  unfold keptFragments, closeLine. cbn [lines currentLine].
  rewrite concat_app. cbn [concat]. by rewrite !app_nil_r.
Qed.

(** A token is appended to what has been kept, or dropped; it is dropped
    only if it is empty or whitespace. *)
Lemma wordStep_kept (segment : TextSegment) (st : WrapState) (w : string) :
  let f := mkSegment w (bold segment) (italic segment) (underline segment) false in
  keptFragments (wordStep segment st w) = keptFragments st ++ [f]
  ∨ (keptFragments (wordStep segment st w) = keptFragments st ∧ trim w = "").
Proof.
  intros f. unfold Pdf.wordStep.
  destruct w as [|c w]; [by right|]. cbn [isEmpty].
  set (st1 := if _ && _ then closeLine st else st).
  assert (keptFragments st1 = keptFragments st) as Hst1.
  { unfold st1. destruct (_ && _); [apply keptFragments_closeLine|done]. }
  destruct (isNil (currentLine st1) && isEmpty (trim (String c w))) eqn:Hskip.
  - right. split; [done|].
    apply andb_true_iff in Hskip as [_ Hws]. by destruct (trim (String c w)).
  - left. unfold keptFragments in *. cbn [lines currentLine].
    by rewrite app_assoc, Hst1.
Qed.

Lemma wordStep_sublist (segment : TextSegment) (ws : list string) :
  ∀ st,
    ∃ kept,
      keptFragments (fold_left (wordStep segment) ws st) = keptFragments st ++ kept
      ∧ kept `sublist_of`
          map (λ w, mkSegment w (bold segment) (italic segment)
                      (underline segment) false) ws
      ∧ filter visible kept
        = filter visible
            (map (λ w, mkSegment w (bold segment) (italic segment)
                         (underline segment) false) ws).
Proof.
  induction ws as [|w ws IH]; intros st.
  - exists []. by rewrite app_nil_r.
  - cbn [fold_left map].
    destruct (IH (wordStep segment st w)) as (kept & -> & Hsub & Hvis).
    destruct (wordStep_kept segment st w) as [-> | [-> Hws]].
    + eexists (_ :: kept). rewrite <- app_assoc. split; [done|]. split.
      * by apply sublist_skip.
      * rewrite !filter_cons. by rewrite Hvis.
    + exists kept. split; [done|]. split.
      * by apply sublist_cons.
      * rewrite filter_cons, Hvis.
        destruct (decide (visible _)) as [Hv|_]; [|done]. by destruct Hv.
Qed.

Lemma segmentStep_kept (segment : TextSegment) (st : WrapState) :
  ∃ kept,
    keptFragments (segmentStep st segment) = keptFragments st ++ kept
    ∧ kept `sublist_of` (if newline segment then [] else tokensOf segment)
    ∧ filter visible kept
      = filter visible (if newline segment then [] else tokensOf segment).
Proof.
  unfold Pdf.segmentStep. destruct (newline segment).
  - exists []. split; [|done]. rewrite app_nil_r.
    unfold keptFragments. cbn [lines currentLine].
    destruct (isNil (currentLine st)) eqn:Hnil.
    + apply isNil_true in Hnil. by rewrite Hnil.
    + rewrite concat_app. cbn [concat]. by rewrite !app_nil_r.
  - apply wordStep_sublist.
Qed.

Lemma segmentStep_sublist (segments : list TextSegment) :
  ∀ st,
    ∃ kept,
      keptFragments (fold_left segmentStep segments st) = keptFragments st ++ kept
      ∧ kept `sublist_of` allTokens segments
      ∧ filter visible kept = filter visible (allTokens segments).
Proof.
  induction segments as [|segment segments IH]; intros st.
  - exists []. by rewrite app_nil_r.
  - cbn [fold_left]. unfold allTokens. cbn [flat_map].
    destruct (IH (segmentStep st segment)) as (kept & -> & Hsub & Hvis).
    destruct (segmentStep_kept segment st) as (kept0 & -> & Hsub0 & Hvis0).
    exists (kept0 ++ kept). rewrite <- app_assoc. split; [done|]. split.
    + by apply sublist_app.
    + rewrite !filter_app. by rewrite Hvis0, Hvis.
Qed.

(** *** Text that fits *)

Local Abbreviation lineWidth := (lineWidth widthOfString).
Local Abbreviation fragmentWidth := (fragmentWidth widthOfString).

Lemma lineWidth_from (l : list TextSegment) (a : Z) :
  fold_left (λ w f, (w + fragmentWidth f)%Z) l a = (a + lineWidth l)%Z.
Proof.
  unfold Pdf.lineWidth. revert a. induction l as [|f l IH]; intros a.
  - cbn. lia.
  - cbn [fold_left]. rewrite IH, (IH (0 + _)%Z). lia.
Qed.

Lemma lineWidth_cons (f : TextSegment) (l : list TextSegment) :
  lineWidth (f :: l) = (fragmentWidth f + lineWidth l)%Z.
Proof. unfold Pdf.lineWidth at 1. cbn [fold_left]. by rewrite lineWidth_from. Qed.

Lemma lineWidth_app (l k : list TextSegment) :
  lineWidth (l ++ k) = (lineWidth l + lineWidth k)%Z.
Proof.
  unfold Pdf.lineWidth at 1. rewrite fold_left_app. fold (lineWidth l).
  by rewrite lineWidth_from.
Qed.

Hypothesis width_nonneg : ∀ font t, (0 ≤ widthOfString font t)%Z.

Lemma lineWidth_nonneg (l : list TextSegment) : (0 ≤ lineWidth l)%Z.
Proof.
  induction l as [|f l IH]; [done|]. rewrite lineWidth_cons.
  pose proof (width_nonneg (getFontName (bold f) (italic f)) (text f)).
  unfold Pdf.fragmentWidth. lia.
Qed.

Lemma words_fit (segment : TextSegment) (ws : list string) :
  ∀ st,
    lines st = [] →
    (currentWidth st
     + lineWidth (map (λ w, mkSegment w (bold segment) (italic segment)
                              (underline segment) false) ws) ≤ maxWidth)%Z →
    lines (fold_left (wordStep segment) ws st) = []
    ∧ (currentWidth (fold_left (wordStep segment) ws st)
       ≤ currentWidth st
         + lineWidth (map (λ w, mkSegment w (bold segment) (italic segment)
                                  (underline segment) false) ws))%Z.
Proof.
  induction ws as [|w ws IH]; intros st Hlines Hfit.
  - cbn. split; [done|]. unfold Pdf.lineWidth. cbn. lia.
  - cbn [fold_left map] in *. rewrite lineWidth_cons in *.
    set (rest := lineWidth (map _ ws)) in *.
    pose proof (lineWidth_nonneg (map (λ w, mkSegment w (bold segment)
                  (italic segment) (underline segment) false) ws)) as Hrest.
    fold rest in Hrest.
    pose proof (width_nonneg (getFontName (bold segment) (italic segment)) w) as Hw.
    unfold Pdf.fragmentWidth in *. cbn [text bold italic] in *.
    assert (lines (wordStep segment st w) = []
            ∧ (currentWidth (wordStep segment st w)
               ≤ currentWidth st
                 + widthOfString (getFontName (bold segment) (italic segment)) w)%Z)
      as [Hl Hc].
    { unfold Pdf.wordStep. destruct (isEmpty w); [split; [done|lia]|].
      replace (maxWidth <? currentWidth st
                 + widthOfString (getFontName (bold segment) (italic segment)) w)%Z
        with false by (symmetry; apply Z.ltb_ge; lia).
      cbn [andb]. destruct (_ && _); cbn [lines currentWidth]; split; [done|lia|done|lia]. }
    destruct (IH (wordStep segment st w) Hl) as [Hl' Hc']; [fold rest; lia|].
    fold rest in Hc'. split; [done|lia].
Qed.

Lemma segments_fit (segments : list TextSegment) :
  Forall (λ s, newline s = false) segments →
  ∀ st,
    lines st = [] →
    (currentWidth st + lineWidth (allTokens segments) ≤ maxWidth)%Z →
    lines (fold_left segmentStep segments st) = [].
Proof.
  induction 1 as [|segment segments Hseg Hsegs IH]; intros st Hlines Hfit; [done|].
  cbn [fold_left]. unfold allTokens in Hfit. cbn [flat_map] in Hfit.
  rewrite Hseg, lineWidth_app in Hfit. fold (allTokens segments) in Hfit.
  pose proof (lineWidth_nonneg (allTokens segments)) as Hrest.
  assert (lines (segmentStep st segment) = []
          ∧ (currentWidth (segmentStep st segment)
             ≤ currentWidth st + lineWidth (tokensOf segment))%Z) as [Hl Hc].
  { unfold Pdf.segmentStep. rewrite Hseg. apply words_fit; [done|].
    unfold tokensOf in Hfit. lia. }
  apply IH; [done|lia].
Qed.

End Wrap.

(** X23: wrapping drops whitespace and nothing else.  The fragments of the
    wrapped lines, read line after line, are tokens of the runs in their
    order, each with the style of its run; none is added, moved or restyled,
    and every token that is not whitespace is among them. *)
Theorem splitIntoLines_keeps_words (widthOfString : string → string → Z)
    (maxWidth : Z) (segments : list TextSegment) :
  concat (splitIntoLines widthOfString maxWidth segments)
    `sublist_of` allTokens segments
  ∧ filter visible (concat (splitIntoLines widthOfString maxWidth segments))
    = filter visible (allTokens segments).
Proof.
  destruct (segmentStep_sublist widthOfString maxWidth segments (mkWrap [] [] 0))
    as (kept & Hkept & Hsub & Hvis).
  assert (concat (splitIntoLines widthOfString maxWidth segments) = kept) as ->;
    [|done].
  unfold splitIntoLines, finish. unfold keptFragments in Hkept.
  cbn [lines currentLine concat app] in Hkept. rewrite <- Hkept.
  destruct (isNil _) eqn:Hnil.
  - apply isNil_true in Hnil. by rewrite Hnil, app_nil_r.
  - rewrite concat_app. cbn [concat]. by rewrite app_nil_r.
Qed.

(** X24: text that fits is not wrapped.  With a width measurement that is
    never negative, runs without line breaks whose tokens together are not
    wider than the box come out as a single line (or as no line at all, if
    nothing but whitespace is there). *)
Theorem splitIntoLines_one_line (widthOfString : string → string → Z)
    (maxWidth : Z) (segments : list TextSegment) :
  (∀ font t, (0 ≤ widthOfString font t)%Z) →
  Forall (λ s, newline s = false) segments →
  (lineWidth widthOfString (allTokens segments) ≤ maxWidth)%Z →
  length (splitIntoLines widthOfString maxWidth segments) ≤ 1.
Proof.
  intros Hw Hseg Hfit. unfold splitIntoLines, finish.
  rewrite (segments_fit widthOfString maxWidth Hw segments Hseg (mkWrap [] [] 0));
    [|done|cbn [currentWidth]; lia].
  destruct (isNil _); cbn; lia.
Qed.

Lemma splitIntoLines_one_line_witness :
  (∀ font t, (0 ≤ fixedPitch font t)%Z)
  ∧ (lineWidth fixedPitch (allTokens [word "Ann "; word "Lee"]) ≤ 60)%Z
  ∧ length (splitIntoLines fixedPitch 60 [word "Ann "; word "Lee"]) ≤ 1.
Proof.
  assert (∀ font t, (0 ≤ fixedPitch font t)%Z) as Hw
    by (intros font t; unfold fixedPitch; lia).
  split; [exact Hw|]. split; [by vm_compute|].
  apply (splitIntoLines_one_line fixedPitch 60 [word "Ann "; word "Lee"] Hw).
  - by repeat constructor.
  - by vm_compute.
Defined.

(** *** Placement on the grid *)

Lemma placement_inj {num : Type} (add mul : num → num → num) (ofNat : nat → num)
    (format : PaperFormat num) (i j : nat) :
  0 < columns format → 0 < rows format →
  pageIndex (placementOf add mul ofNat format i)
  = pageIndex (placementOf add mul ofNat format j) →
  row (placementOf add mul ofNat format i)
  = row (placementOf add mul ofNat format j) →
  column (placementOf add mul ofNat format i)
  = column (placementOf add mul ofNat format j) →
  i = j.
Proof.
  intros HC HR. unfold placementOf. cbn [pageIndex row column].
  set (L := labelsPerPage format). set (C := columns format).
  intros Hp Hr Hc.
  assert (i mod L = j mod L) as Hmod.
  { rewrite (Nat.div_mod_eq (i mod L) C), (Nat.div_mod_eq (j mod L) C).
    by rewrite Hr, Hc. }
  rewrite (Nat.div_mod_eq i L), (Nat.div_mod_eq j L). by rewrite Hp, Hmod.
Qed.

(** X25: the labels of a document.  On a format with at least one column
    and one row every record gets exactly one label, in the order of the
    records; each label lies inside the grid (its row and column exist) and
    on one of the pages of the document; and no two labels share a position
    (page, row and column). *)
Theorem generatePDF_placements {num : Type} (add mul : num → num → num)
    (ofNat : nat → num) (format : PaperFormat num)
    (data : list (gmap string string)) :
  0 < columns format → 0 < rows format →
  ∃ placements pages,
    generatePDF add mul ofNat format data = Some placements
    ∧ totalPages format data = Some pages
    ∧ map recordIndex placements = seq 0 (length data)
    ∧ Forall (λ p, row p < rows format ∧ column p < columns format
                   ∧ pageIndex p < pages) placements
    ∧ NoDup (map (λ p, (pageIndex p, row p, column p)) placements).
Proof.
  intros HC HR.
  assert (0 < labelsPerPage format) as HL by (unfold labelsPerPage; nia).
  destruct (totalPages_ceil num format data HL) as (pages & Hpages & Hle & _).
  eexists _, pages. split; [by apply generatePDF_row_major|].
  split; [done|]. split; [|split].
  - rewrite map_map. cbn [placementOf recordIndex]. apply map_id.
  - apply Forall_fmap, Forall_forall. intros i Hi%elem_of_seq.
    unfold placementOf. cbn [row column pageIndex].
    split; [|split].
    + apply Nat.Div0.div_lt_upper_bound.
      replace (columns format * rows format) with (labelsPerPage format)
        by done.
      apply Nat.mod_upper_bound. lia.
    + apply Nat.mod_upper_bound. lia.
    + apply Nat.Div0.div_lt_upper_bound. lia.
  - rewrite map_map. apply NoDup_fmap_2; [|apply NoDup_seq].
    intros i j [= Hp Hr Hc].
    by apply (placement_inj add mul ofNat format).
Qed.

Lemma generatePDF_placements_witness :
  0 < columns sixUpFormat ∧ 0 < rows sixUpFormat
  ∧ ∃ placements pages,
      generatePDF Z.add Z.mul Z.of_nat sixUpFormat sevenRecords = Some placements
      ∧ totalPages sixUpFormat sevenRecords = Some pages
      ∧ map recordIndex placements = seq 0 (length sevenRecords).
Proof.
  split; [cbn; lia|]. split; [cbn; lia|].
  destruct (generatePDF_placements Z.add Z.mul Z.of_nat sixUpFormat sevenRecords
              ltac:(cbn; lia) ltac:(cbn; lia))
    as (placements & pages & H1 & H2 & H3 & _).
  by exists placements, pages.
Defined.

(** The edges of pagination.  Without records nothing is drawn and no
    page is added, whatever the format; with records and a format that has
    no label position (no column or no row) the number of pages is infinite
    and the page loop never ends. *)
Theorem generatePDF_edges {num : Type} (add mul : num → num → num)
    (ofNat : nat → num) (format : PaperFormat num)
    (data : list (gmap string string)) :
  (data = [] →
   totalPages format data = Some 0
   ∧ generatePDF add mul ofNat format data = Some [])
  ∧ (data ≠ [] → labelsPerPage format = 0 →
     totalPages format data = None
     ∧ generatePDF add mul ofNat format data = None).
Proof.
  split.
  - intros ->. unfold generatePDF, totalPages.
    destruct (labelsPerPage format) as [|l] eqn:HL; [done|].
    cbn [length]. replace (0 + S l - 1) with l by lia.
    rewrite Nat.div_small by lia. done.
  - intros Hne HL. unfold generatePDF, totalPages. rewrite HL.
    by destruct data.
Qed.

Lemma generatePDF_edges_witness :
  sevenRecords ≠ []
  ∧ labelsPerPage (mkPaperFormat "none" "None" "no rows" 612%Z 792%Z 2 0
                     100%Z 50%Z 10%Z 20%Z 5%Z 6%Z) = 0
  ∧ generatePDF Z.add Z.mul Z.of_nat
      (mkPaperFormat "none" "None" "no rows" 612%Z 792%Z 2 0
         100%Z 50%Z 10%Z 20%Z 5%Z 6%Z) sevenRecords = None.
Proof.
  split; [discriminate|]. split; [reflexivity|].
  apply (generatePDF_edges Z.add Z.mul Z.of_nat
           (mkPaperFormat "none" "None" "no rows" 612%Z 792%Z 2 0
              100%Z 50%Z 10%Z 20%Z 5%Z 6%Z) sevenRecords);
    [discriminate|reflexivity].
Defined.

(** *** Cut marks *)

Lemma list_sum_plus {A} (f g : A → nat) (l : list A) :
  list_sum (map (λ x, f x + g x) l) = list_sum (map f l) + list_sum (map g l).
Proof. induction l as [|x l IH]; [done|]. simpl. rewrite IH. lia. Qed.

Lemma list_sum_const {A} (v : nat) (l : list A) :
  list_sum (map (λ _, v) l) = length l * v.
Proof. induction l as [|x l IH]; [done|]. simpl. rewrite IH. lia. Qed.

Lemma list_sum_at (k v a n : nat) :
  list_sum (map (λ x, if x =? k then v else 0) (seq a n))
  = if (a <=? k) && (k <? a + n) then v else 0.
Proof.
  revert a. induction n as [|n IH]; intros a.
  - change (list_sum (map _ (seq a 0))) with 0.
    destruct (a <=? k) eqn:H1, (k <? a + 0) eqn:H2; try done.
    apply Nat.leb_le in H1. apply Nat.ltb_lt in H2. lia.
  - change (seq a (S n)) with (a :: seq (S a) n). cbn [map].
    change (list_sum (?h :: ?t)) with (h + list_sum t). rewrite IH.
    destruct (a =? k) eqn:Ha, (S a <=? k) eqn:H1, (k <? S a + n) eqn:H2,
      (a <=? k) eqn:H3, (k <? a + S n) eqn:H4; cbn [andb];
      rewrite ?Nat.eqb_eq, ?Nat.eqb_neq, ?Nat.leb_le, ?Nat.leb_gt,
        ?Nat.ltb_lt, ?Nat.ltb_ge in *; lia.
Qed.

Section CutMarks.
Variable num : Type.
Variable add sub mul : num → num → num.
Variable half : num → num.
Variable ofNat : nat → num.
Variable format : PaperFormat num.

Local Abbreviation cornerMarks := (PdfDraw.cornerMarks add sub mul half ofNat format).
Local Abbreviation drawCutMarks := (PdfDraw.drawCutMarks add sub mul half ofNat format).

Lemma cornerMarks_length (row col : nat) :
  length (cornerMarks row col)
  = ((if row =? 0 then 2 else 0)
     + (if col =? 0 then (if row =? 0 then 0 else 2) else 0))
    + (if col =? columns format then 2 else 0)
    + (if row =? rows format then 2 else 0)
    + (if col =? columns format then (if row =? rows format then 2 else 0) else 0).
Proof.
  unfold PdfDraw.cornerMarks. cbn zeta. rewrite !length_app.
  destruct (row =? 0), (col =? 0), (col =? columns format),
    (row =? rows format); reflexivity.
Qed.

Lemma rowMarks_length (row : nat) :
  length (flat_map (λ col, cornerMarks row col) (seq 0 (S (columns format))))
  = (if row =? 0 then 2 * S (columns format) else 2) + 2
    + (if row =? rows format then 2 * S (columns format) + 2 else 0).
Proof.
  rewrite length_flat_map.
  rewrite (map_ext _ _ (cornerMarks_length row)).
  rewrite !list_sum_plus, !list_sum_at, !list_sum_const, length_seq.
  replace (0 <=? 0) with true by done.
  replace (0 <? 0 + S (columns format)) with true by done.
  replace (0 <=? columns format) with true by (symmetry; apply Nat.leb_le; lia).
  replace (columns format <? 0 + S (columns format)) with true
    by (symmetry; apply Nat.ltb_lt; lia).
  cbn [andb]. destruct (row =? 0), (row =? rows format); lia.
Qed.

(** X26: the number of cut marks.  [drawCutMarks] strokes [4 * (rows +
    columns + 2)] lines on a page, whatever the sizes and gaps of the
    format. *)
Theorem drawCutMarks_count :
  length drawCutMarks = 4 * (rows format + columns format + 2).
Proof.
  unfold PdfDraw.drawCutMarks. rewrite length_flat_map.
  rewrite (map_ext _ _ rowMarks_length).
  rewrite (map_ext _ (λ row,
             ((if row =? 0 then 2 * columns format else 0) + 4)
             + (if row =? rows format then 2 * S (columns format) + 2 else 0))).
  2:{ intros row. destruct (row =? 0); lia. }
  rewrite !list_sum_plus, !list_sum_at, !list_sum_const, length_seq.
  replace (0 <=? 0) with true by done.
  replace (0 <? 0 + S (rows format)) with true by done.
  replace (0 <=? rows format) with true by (symmetry; apply Nat.leb_le; lia).
  replace (rows format <? 0 + S (rows format)) with true
    by (symmetry; apply Nat.ltb_lt; lia).
  cbn [andb]. lia.
Qed.

(** X27: where cut marks are drawn.  An intersection of the grid lines gets
    marks exactly when it lies on the border of the grid (first or last row,
    first or last column); the intersections inside the grid get none.
    Every mark is a horizontal or a vertical line. *)
Theorem cornerMarks_border (row col : nat) :
  row ≤ rows format → col ≤ columns format →
  (cornerMarks row col = []
   ↔ 0 < row < rows format ∧ 0 < col < columns format)
  ∧ Forall (λ s, fromY s = toY s ∨ fromX s = toX s) (cornerMarks row col).
Proof.
  intros Hrow Hcol. split.
  - rewrite <- length_zero_iff_nil, cornerMarks_length.
    destruct (row =? 0) eqn:H1, (col =? 0) eqn:H2,
      (col =? columns format) eqn:H3, (row =? rows format) eqn:H4;
      rewrite ?Nat.eqb_eq, ?Nat.eqb_neq in *; lia.
  - unfold PdfDraw.cornerMarks. cbn zeta.
    destruct ((row =? 0) || (col =? 0)), (col =? columns format),
      (row =? rows format); cbn [andb app];
      repeat (apply Forall_cons; split;
              [first [by left | by right]|]);
      apply Forall_nil_2.
Qed.

End CutMarks.

Lemma cornerMarks_border_witness :
  1 ≤ rows sixUpFormat ∧ 1 ≤ columns sixUpFormat
  ∧ PdfDraw.cornerMarks Z.add Z.sub Z.mul (λ a, a / 2)%Z Z.of_nat sixUpFormat 1 1
    = [].
Proof.
  split; [cbn; lia|]. split; [cbn; lia|].
  apply (proj1 (cornerMarks_border Z Z.add Z.sub Z.mul (λ a, a / 2)%Z Z.of_nat
                  sixUpFormat 1 1 ltac:(cbn; lia) ltac:(cbn; lia))).
  cbn. lia.
Defined.

(** *** Drawing a label *)

Section Render.
Variable num : Type.
Variable add sub mul : num → num → num.
Variable half : num → num.
Variable ofNat : nat → num.
Variable ofZ : Z → num.
Variable lineFactor : num.
Variable widthOfString : string → string → Z.

Local Abbreviation fragmentOps := (fragmentOps add ofZ widthOfString).

Lemma drawSegments_placed (line : list TextSegment) (fontSize : num) :
  ∀ currentX currentY,
    ∃ positions,
      length positions = length line
      ∧ Forall (λ p, p.2 = currentY) positions
      ∧ PdfDraw.drawSegments add ofZ widthOfString line fontSize currentX currentY
        = flat_map (fragmentOps fontSize) (zip line positions).
Proof.
  induction line as [|f line IH]; intros currentX currentY.
  - by exists [].
  - cbn [PdfDraw.drawSegments].
    destruct (IH (add currentX
                    (ofZ (widthOfString (getFontName (bold f) (italic f)) (text f))))
                 currentY) as (ps & Hlen & Hy & ->).
    exists ((currentX, currentY) :: ps). split; [by cbn; rewrite Hlen|].
    split; [by apply Forall_cons|].
    cbn [zip zip_with flat_map fragmentOps Aux.fragmentOps].
    by destruct (underline f).
Qed.

Lemma drawLines_placed (lines : list (list TextSegment)) (x : num) (width : Z)
    (fontSize lineHeight : num) (textAlign : PdfDraw.TextAlign) :
  ∀ currentY,
    ∃ positions,
      length positions = length (concat lines)
      ∧ PdfDraw.drawLines add sub half ofZ widthOfString lines x width fontSize
          lineHeight textAlign currentY
        = flat_map (fragmentOps fontSize) (zip (concat lines) positions).
Proof.
  induction lines as [|line lines IH]; intros currentY.
  - by exists [].
  - cbn [PdfDraw.drawLines concat].
    destruct (IH (add currentY lineHeight)) as (ps & Hlen & ->).
    destruct (drawSegments_placed line fontSize
                (PdfDraw.lineStartX num add sub half ofZ textAlign x width
                   (PdfDraw.measuredLineWidth num add ofZ widthOfString line))
                currentY) as (ps0 & Hlen0 & _ & ->).
    exists (ps0 ++ ps). split; [by rewrite !length_app, Hlen, Hlen0|].
    rewrite (zip_with_app pair line (concat lines) ps0 ps) by (by rewrite Hlen0).
    by rewrite flat_map_app.
Qed.

(** X28: what a label shows.  [renderLabelContent] draws the fragments of
    the wrapped lines of the segmented content, each exactly once and in
    order, under the font of its style; right after an underlined fragment,
    and nowhere else, it strokes a line as wide as the fragment, one font
    size below the position of the text. *)
Theorem renderLabelContent_draws (content : string) (x y : num) (width : Z)
    (height fontSize : num) (textAlign : PdfDraw.TextAlign)
    (verticalAlign : PdfDraw.VerticalAlign) :
  let fragments :=
    concat (splitIntoLines widthOfString width (parseMarkdownToSegments content)) in
  ∃ positions,
    length positions = length fragments
    ∧ PdfDraw.renderLabelContent add sub mul half ofNat ofZ lineFactor
        widthOfString content x y width height fontSize textAlign verticalAlign
      = flat_map (fragmentOps fontSize) (zip fragments positions).
Proof. intros fragments. unfold PdfDraw.renderLabelContent. apply drawLines_placed. Qed.

End Render.

End PdfExtras.

(** ** Plain text *)

Module MarkdownTextExtras.
Import JS Markdown MarkdownText Spec Aux StringProps MarkdownClaims CsvExtras.

Lemma replacePair_no_match (mark : string) (c : ascii) (s : string) :
  matchPair mark (String c s) = None →
  replacePair mark (String c s) = String c (replacePair mark s).
Proof. intros H. unfold replacePair. cbn [replacePairFrom]. by rewrite H. Qed.

Lemma matchPair_other (m c : ascii) (mark s : string) :
  Ascii.eqb c m = false → matchPair (String m mark) (String c s) = None.
Proof. intros H. unfold matchPair. cbn [stripPrefix]. by rewrite H. Qed.

(** Text without the first character of the marker stays as it is. *)
Lemma replacePair_prefix (m : ascii) (mark a r : string) :
  countChar m a = 0 →
  replacePair (String m mark) (a +:+ r) = a +:+ replacePair (String m mark) r.
Proof.
  induction a as [|c a IH]; [done|]. cbn [countChar].
  destruct (Ascii.eqb c m) eqn:Hc; [done|]. intros Ha.
  rewrite !sapp_cons, replacePair_no_match by (by apply matchPair_other).
  by rewrite IH.
Qed.

Lemma replacePair_absent (m : ascii) (mark a : string) :
  countChar m a = 0 → replacePair (String m mark) a = a.
Proof.
  intros Ha. rewrite <- (sapp_nil_r a) at 1.
  rewrite replacePair_prefix by done. by rewrite sapp_nil_r.
Qed.

Lemma prose_char (c : ascii) :
  isProse c = true →
  Ascii.eqb c STAR = false ∧ Ascii.eqb c UNDERSCORE = false
  ∧ Ascii.eqb c TILDE = false ∧ isDot c = true.
Proof.
  unfold isProse, isMarker.
  rewrite andb_true_iff, negb_true_iff, !orb_false_iff. tauto.
Qed.

Lemma prose_count (s : string) (m : ascii) :
  proseText s = true → m = STAR ∨ m = UNDERSCORE ∨ m = TILDE →
  countChar m s = 0.
Proof.
  intros Hs Hm. induction s as [|c s IH]; [done|].
  unfold proseText in *. cbn [forallChars countChar] in *.
  apply andb_true_iff in Hs as [Hc Hs].
  apply prose_char in Hc as (H1 & H2 & H3 & _). rewrite (IH Hs).
  by destruct Hm as [-> | [-> | ->]]; rewrite ?H1, ?H2, ?H3.
Qed.

(** X29: [markdownToPlainText] leaves text without [*], [_] and [~]
    exactly as it is. *)
Theorem markdownToPlainText_prose (s : string) :
  countChar STAR s = 0 → countChar UNDERSCORE s = 0 → countChar TILDE s = 0 →
  markdownToPlainText s = s.
Proof.
  intros H1 H2 H3. unfold markdownToPlainText.
  replace (replacePair "**" s) with s
    by (symmetry; exact (replacePair_absent STAR "*" s H1)).
  replace (replacePair "__" s) with s
    by (symmetry; exact (replacePair_absent UNDERSCORE "_" s H2)).
  replace (replacePair "*" s) with s
    by (symmetry; exact (replacePair_absent STAR "" s H1)).
  replace (replacePair "_" s) with s
    by (symmetry; exact (replacePair_absent UNDERSCORE "" s H2)).
  exact (replacePair_absent TILDE "~" s H3).
Qed.

Lemma markdownToPlainText_prose_witness :
  countChar STAR "12 Main St." = 0 ∧ countChar UNDERSCORE "12 Main St." = 0
  ∧ countChar TILDE "12 Main St." = 0
  ∧ markdownToPlainText "12 Main St." = "12 Main St.".
Proof.
  split; [reflexivity|]. split; [reflexivity|]. split; [reflexivity|].
  by apply markdownToPlainText_prose.
Defined.

Lemma stripPrefix_app (mark t : string) : stripPrefix mark (mark +:+ t) = Some t.
Proof.
  induction mark as [|m mark IH]; [done|].
  rewrite sapp_cons. cbn [stripPrefix]. by rewrite Ascii.eqb_refl.
Qed.

Lemma closeAfter_eq (mark s : string) :
  closeAfter mark s
  = match stripPrefix mark s with
    | Some rest => Some ("", rest)
    | None =>
        match s with
        | String c s' =>
            if isDot c then
              match closeAfter mark s' with
              | Some (capture, rest) => Some (String c capture, rest)
              | None => None
              end
            else None
        | "" => None
        end
    end.
Proof. by destruct s. Qed.

Lemma prose_dots (s : string) : proseText s = true → forallChars isDot s = true.
Proof.
  unfold proseText. induction s as [|c s IH]; [done|]. cbn [forallChars].
  rewrite !andb_true_iff. intros [Hc Hs]. split; [|by apply IH].
  by apply prose_char in Hc as (_ & _ & _ & Hd).
Qed.

(** The lazy group stops at the first closing marker. *)
Lemma closeAfter_first (m : ascii) (mark s t : string) :
  countChar m s = 0 → forallChars isDot s = true →
  closeAfter (String m mark) (s +:+ String m mark +:+ t) = Some (s, t).
Proof.
  induction s as [|c s IH]; intros Hm Hd.
  - rewrite closeAfter_eq.
    change ("" +:+ String m mark +:+ t) with (String m mark +:+ t).
    by rewrite stripPrefix_app.
  - cbn [countChar] in Hm. destruct (Ascii.eqb c m) eqn:Hc; [done|].
    cbn [forallChars] in Hd. apply andb_true_iff in Hd as [Hdc Hd].
    rewrite closeAfter_eq, sapp_cons. cbn [stripPrefix]. rewrite Hc, Hdc.
    by rewrite IH.
Qed.

Lemma replacePairFrom_skip (mark a r : string) :
  replacePairFrom mark (String.length a) (a +:+ r) = replacePairFrom mark 0 r.
Proof.
  induction a as [|c a IH]; [by destruct r|].
  rewrite sapp_cons. cbn [String.length replacePairFrom]. apply IH.
Qed.

(** One pair of markers around a text without the marker's character is
    replaced by the text. *)
Lemma replacePair_pair (m : ascii) (mark s t : string) :
  s ≠ "" → countChar m s = 0 → forallChars isDot s = true →
  replacePair (String m mark) (String m mark +:+ s +:+ String m mark +:+ t)
  = s +:+ replacePair (String m mark) t.
Proof.
  intros Hne Hm Hd. destruct s as [|c s]; [done|].
  cbn [countChar] in Hm. destruct (Ascii.eqb c m) eqn:Hc; [done|].
  cbn [forallChars] in Hd. apply andb_true_iff in Hd as [Hdc Hd].
  assert (Hmatch : matchPair (String m mark)
                     (String m mark +:+ String c s +:+ String m mark +:+ t)
                   = Some (String c s, t)).
  { unfold matchPair. rewrite stripPrefix_app, sapp_cons, Hdc.
    by rewrite closeAfter_first. }
  unfold replacePair. rewrite (sapp_cons m mark) in *.
  cbn [replacePairFrom]. rewrite Hmatch. f_equal.
  rewrite <- (replacePairFrom_skip (String m mark) (mark +:+ String c s +:+ String m mark) t).
  rewrite !sapp_assoc. f_equal.
  rewrite !slength_app. cbn [String.length]. lia.
Qed.

(** A doubled marker finds nothing in a text whose markers stand alone. *)
Lemma replacePair_lone (m : ascii) (a s t : string) :
  s ≠ "" → countChar m a = 0 → countChar m s = 0 → countChar m t = 0 →
  replacePair (String m (chr m)) (a +:+ chr m +:+ s +:+ chr m +:+ t)
  = a +:+ chr m +:+ s +:+ chr m +:+ t.
Proof.
  intros Hne Ha Hs Ht. rewrite replacePair_prefix by done. f_equal.
  unfold chr at 2. rewrite sapp_cons. change ("" +:+ ?x) with x.
  rewrite replacePair_no_match.
  2:{ destruct s as [|c s]; [done|]. cbn [countChar] in Hs.
      destruct (Ascii.eqb c m) eqn:Hc; [done|].
      unfold matchPair, chr. rewrite sapp_cons. cbn [stripPrefix].
      by rewrite Ascii.eqb_refl, Hc. }
  f_equal. rewrite replacePair_prefix by done. f_equal.
  unfold chr at 2. rewrite sapp_cons. change ("" +:+ ?x) with x.
  rewrite replacePair_no_match.
  2:{ unfold matchPair, chr. cbn [stripPrefix]. rewrite Ascii.eqb_refl.
      destruct t as [|c t]; [done|]. cbn [countChar] in Ht.
      by destruct (Ascii.eqb c m). }
  f_equal. by apply replacePair_absent.
Qed.

Lemma markdownToPlainText_passes (text : string) :
  markdownToPlainText text
  = replacePair (String TILDE (chr TILDE))
      (replacePair (String UNDERSCORE "")
         (replacePair (String STAR "")
            (replacePair (String UNDERSCORE (chr UNDERSCORE))
               (replacePair (String STAR (chr STAR)) text)))).
Proof. reflexivity. Qed.

Lemma wrapIn_shape (a mark s t : string) :
  a +:+ wrapIn mark s +:+ t = a +:+ mark +:+ s +:+ mark +:+ t.
Proof. unfold wrapIn. by rewrite !sapp_assoc. Qed.

Lemma count_three (m : ascii) (a s t : string) :
  countChar m a = 0 → countChar m s = 0 → countChar m t = 0 →
  countChar m (a +:+ s +:+ t) = 0.
Proof. intros Ha Hs Ht. rewrite !countChar_app. lia. Qed.

Lemma count_wrapped (m : ascii) (a mark s t : string) :
  countChar m a = 0 → countChar m mark = 0 → countChar m s = 0 →
  countChar m t = 0 →
  countChar m (a +:+ mark +:+ s +:+ mark +:+ t) = 0.
Proof. intros Ha Hk Hs Ht. rewrite !countChar_app. lia. Qed.

(** Passes whose marker does not occur in [x] are dropped. *)
Ltac absent x :=
  repeat match goal with
         | |- context [replacePair (String ?m ?k) x] =>
             rewrite (replacePair_absent m k x)
               by (first [by apply count_wrapped | by apply count_three])
         end.

(** X30: [markdownToPlainText] removes one pair of markers.  In a text of
    prose (no [*], [_], [~], no line terminator) with one non-empty stretch
    wrapped in one of the five markers, the result is the text without the
    two markers. *)
Theorem markdownToPlainText_strips (mark a s t : string) :
  In mark styleMarks →
  proseText a = true → proseText s = true → s ≠ "" → proseText t = true →
  markdownToPlainText (a +:+ wrapIn mark s +:+ t) = a +:+ s +:+ t.
Proof.
  intros Hmark Ha Hs Hne Ht.
  pose proof (prose_dots s Hs) as Hd.
  assert (Hc : ∀ m x, proseText x = true →
                 m = STAR ∨ m = UNDERSCORE ∨ m = TILDE → countChar m x = 0)
    by (intros m x Hx Hm; by apply prose_count).
  pose proof (Hc STAR a Ha (or_introl eq_refl)) as Ha1.
  pose proof (Hc UNDERSCORE a Ha (or_intror (or_introl eq_refl))) as Ha2.
  pose proof (Hc TILDE a Ha (or_intror (or_intror eq_refl))) as Ha3.
  pose proof (Hc STAR s Hs (or_introl eq_refl)) as Hs1.
  pose proof (Hc UNDERSCORE s Hs (or_intror (or_introl eq_refl))) as Hs2.
  pose proof (Hc TILDE s Hs (or_intror (or_intror eq_refl))) as Hs3.
  pose proof (Hc STAR t Ht (or_introl eq_refl)) as Ht1.
  pose proof (Hc UNDERSCORE t Ht (or_intror (or_introl eq_refl))) as Ht2.
  pose proof (Hc TILDE t Ht (or_intror (or_intror eq_refl))) as Ht3.
  rewrite markdownToPlainText_passes, wrapIn_shape.
  destruct Hmark as [<- | [<- | [<- | [<- | [<- | []]]]]].
  - rewrite replacePair_prefix, replacePair_pair, (replacePair_absent STAR _ t)
      by done.
    by absent (a +:+ s +:+ t).
  - absent (a +:+ String UNDERSCORE (chr UNDERSCORE) +:+ s
            +:+ String UNDERSCORE (chr UNDERSCORE) +:+ t).
    rewrite replacePair_prefix, replacePair_pair,
      (replacePair_absent UNDERSCORE _ t) by done.
    by absent (a +:+ s +:+ t).
  - rewrite replacePair_lone by done.
    absent (a +:+ chr STAR +:+ s +:+ chr STAR +:+ t).
    unfold chr at 1 2.
    rewrite replacePair_prefix, replacePair_pair, (replacePair_absent STAR _ t)
      by done.
    by absent (a +:+ s +:+ t).
  - absent (a +:+ chr UNDERSCORE +:+ s +:+ chr UNDERSCORE +:+ t).
    rewrite replacePair_lone by done.
    absent (a +:+ chr UNDERSCORE +:+ s +:+ chr UNDERSCORE +:+ t).
    unfold chr at 1 2.
    rewrite replacePair_prefix, replacePair_pair,
      (replacePair_absent UNDERSCORE _ t) by done.
    by absent (a +:+ s +:+ t).
  - absent (a +:+ String TILDE (chr TILDE) +:+ s
            +:+ String TILDE (chr TILDE) +:+ t).
    by rewrite replacePair_prefix, replacePair_pair,
      (replacePair_absent TILDE _ t) by done.
Qed.

Lemma markdownToPlainText_strips_witness :
  In "__" styleMarks ∧ proseText "to " = true ∧ proseText "Ann" = true
  ∧ "Ann" ≠ "" ∧ proseText " Lee" = true
  ∧ markdownToPlainText "to __Ann__ Lee" = "to Ann Lee".
Proof.
  assert (Hin : In "__" styleMarks) by (right; left; reflexivity).
  split; [exact Hin|]. split; [reflexivity|]. split; [reflexivity|].
  split; [discriminate|]. split; [reflexivity|].
  exact (markdownToPlainText_strips "__" "to " "Ann" " Lee" Hin
           eq_refl eq_refl ltac:(discriminate) eq_refl).
Defined.

End MarkdownTextExtras.
